(** * Emulator session harness: serial line framing and session lifecycle

    A shallow embedding of the QEMU harness of this repository:
    - [QEMURunner] of [tests/conftest.py] (the pytest fixture), and
    - [QEMUManager] of [setup.py] (the Flask control plane),
    together with the properties of the line framer, the line queue and the
    start/stop lifecycle. *)

From Equations Require Import Equations.
From Stdlib Require Import String Strings.Byte List Arith ZArith Lia Bool.
Import ListNotations.

(** ** Bytes

    A Python [bytes] value is a list of bytes. *)

Definition bytes := list byte.

Definition nl : byte := x0a.

Definition is_nl (b : byte) : bool := Byte.eqb b nl.

(** [bytes.strip()] with no argument removes ASCII whitespace, the byte values
    of [b' \t\n\r\x0b\x0c'], from both ends. *)
Definition isspace (b : byte) : bool :=
  match b with
  | x20 | x09 | x0a | x0d | x0b | x0c => true
  | _ => false
  end.

Fixpoint lstrip (l : bytes) : bytes :=
  match l with
  | [] => []
  | b :: r => if isspace b then lstrip r else l
  end.

Definition rstrip (l : bytes) : bytes := rev (lstrip (rev l)).

Definition strip (l : bytes) : bytes := rstrip (lstrip l).

(** [b'\n' in buffer] together with [buffer.split(b'\n', 1)]: [None] when the
    buffer holds no delimiter, otherwise the prefix before the first delimiter
    and the rest after it. *)
Fixpoint split_nl (buffer : bytes) : option (bytes * bytes) :=
  match buffer with
  | [] => None
  | b :: r =>
      if is_nl b then Some ([], r)
      else match split_nl r with
           | Some (line, rest) => Some (b :: line, rest)
           | None => None
           end
  end.

(** ** Line framer

    The inner loop of [QEMURunner._reader]:
<<
    while b'\n' in buffer:
        line, buffer = buffer.split(b'\n', 1)
        self.output_queue.put(line.strip())
>>
    The state is the local [buffer] and the shared [output_queue]; [put]
    appends at the tail of the queue. *)

Definition inspect {A} (a : A) : {b : A | a = b} := exist _ a eq_refl.

Equations? frame_lines (buffer : bytes) (output_queue : list bytes)
  : bytes * list bytes by wf (length buffer) lt :=
  frame_lines buffer output_queue with inspect (split_nl buffer) := {
    | exist _ (Some (line, rest)) _ =>
        frame_lines rest (output_queue ++ [strip line]);
    | exist _ None _ => (buffer, output_queue) }.
Proof.
  clear frame_lines. revert line rest e.
  induction buffer as [|c r IH]; intros line rest; simpl.
  - discriminate.
  - destruct (is_nl c).
    + intros [= _ <-]. lia.
    + destruct (split_nl r) as [[l' r']|]; [|discriminate].
      intros [= _ <-]. specialize (IH _ _ eq_refl). lia.
Qed.

(** One successful [recv] of the reader:
<<
    if data:
        buffer += data
        while b'\n' in buffer: ...
>> *)
Definition on_data (buffer : bytes) (output_queue : list bytes) (data : bytes)
  : bytes * list bytes :=
  match data with
  | [] => (buffer, output_queue)
  | _ :: _ => frame_lines (buffer ++ data) output_queue
  end.

Definition b (s : string) : bytes := list_byte_of_string s.

(** ** The reader loop

    One iteration of
<<
    while self.serial:
        try:
            data = self.serial.recv(1024)
            if data: ...
        except socket.timeout:
            pass
        except:
            break
>>
    is driven by what the thread observes: whether [self.serial] is still set
    when the loop condition is tested, and how [recv] returns. *)

Inductive recv_result :=
| Data (data : bytes)        (* recv returned, possibly with b'' *)
| Timeout                    (* socket.timeout *)
| OtherError.                (* any other exception: closed or broken socket *)

Inductive reader_obs :=
| SerialNone                 (* the loop condition sees self.serial = None *)
| Recv (r : recv_result).

Inductive loop_status := Looping | Exited.

Record reader_state := mkReader {
  buffer : bytes;
  queue : list bytes;
  status : loop_status
}.

Definition reader_init (output_queue : list bytes) : reader_state :=
  mkReader [] output_queue Looping.

Definition reader_iter (st : reader_state) (o : reader_obs) : reader_state :=
  match status st with
  | Exited => st
  | Looping =>
      match o with
      | SerialNone => mkReader (buffer st) (queue st) Exited
      | Recv (Data data) =>
          let (buf', q') := on_data (buffer st) (queue st) data in
          mkReader buf' q' Looping
      | Recv Timeout => st
      | Recv OtherError => mkReader (buffer st) (queue st) Exited
      end
  end.

Definition _reader (obs : list reader_obs) (st : reader_state)
  : reader_state :=
  fold_left reader_iter obs st.

(** The observations that end the loop. *)
Definition ends_loop (o : reader_obs) : bool :=
  match o with
  | SerialNone | Recv OtherError => true
  | Recv (Data _) | Recv Timeout => false
  end.

(** The bytes the thread received before it left the loop. *)
Fixpoint received (obs : list reader_obs) : bytes :=
  match obs with
  | [] => []
  | o :: rest =>
      if ends_loop o then []
      else match o with
           | Recv (Data data) => data ++ received rest
           | _ => received rest
           end
  end.

(** Successive [recv] calls on a live connection: each returns a chunk of
    the stream ([Some]) or times out ([None]). *)
Definition recv_obs (r : option bytes) : reader_obs :=
  match r with
  | Some data => Recv (Data data)
  | None => Recv Timeout
  end.

(** The byte stream that such calls deliver. *)
Fixpoint stream_of (rs : list (option bytes)) : bytes :=
  match rs with
  | [] => []
  | Some data :: rest => data ++ stream_of rest
  | None :: rest => stream_of rest
  end.

(** ** The line queue seen by consumers

    [queue.Queue.get(timeout=...)] removes the oldest element; on an empty
    queue it gives up after the timeout ([queue.Empty]), which [read_line]
    turns into [None].  A line that the producer enqueues while the consumer
    waits is a producer step scheduled before the consumer step. *)
Definition read_line (output_queue : list bytes)
  : option bytes * list bytes :=
  match output_queue with
  | [] => (None, [])
  | line :: rest => (Some line, rest)
  end.

Inductive sched_event :=
| Producer (o : reader_obs)   (* one iteration of the reader thread *)
| Consumer.                   (* one read_line call *)

Definition sched_step (st : reader_state * list (option bytes))
  (e : sched_event) : reader_state * list (option bytes) :=
  let (r, results) := st in
  match e with
  | Producer o => (reader_iter r o, results)
  | Consumer =>
      let (res, q') := read_line (queue r) in
      (mkReader (buffer r) q' (status r), results ++ [res])
  end.

Definition run_sched (evs : list sched_event)
  (st : reader_state * list (option bytes)) :=
  fold_left sched_step evs st.

Fixpoint producer_obs (evs : list sched_event) : list reader_obs :=
  match evs with
  | [] => []
  | Producer o :: rest => o :: producer_obs rest
  | Consumer :: rest => producer_obs rest
  end.

(** The lines among the results of the [read_line] calls. *)
Fixpoint lines_of (results : list (option bytes)) : list bytes :=
  match results with
  | [] => []
  | Some l :: rest => l :: lines_of rest
  | None :: rest => lines_of rest
  end.

(** ** [read_until]
<<
    start_time = time.time()
    lines = []
    while time.time() - start_time < timeout:
        line = self.read_line(timeout=0.1)
        if line:
            lines.append(line)
            if expected.encode() in line:
                return lines
    return lines
>>
    Time is counted in ticks from [start_time]; [period] is the number of
    ticks in the 0.1 s that one [read_line] waits at most, so that the finer
    the tick, the more arrival times are covered.  The producer enqueues the
    lines [arrivals t] at tick [t].  A [read_line] that finds a line returns at
    once; one that finds the queue empty returns as soon as lines arrive, or
    after [period] ticks; the loop condition is tested on the clock. *)

Fixpoint is_prefix (p l : bytes) : bool :=
  match p, l with
  | [], _ => true
  | _ :: _, [] => false
  | x :: p', y :: l' => Byte.eqb x y && is_prefix p' l'
  end.

(** [expected in line] on bytes. *)
Fixpoint contains (expected line : bytes) : bool :=
  is_prefix expected line ||
  match line with
  | [] => false
  | _ :: rest => contains expected rest
  end.

(** Truth value of a [bytes] object: [b''] is false. *)
Definition truthy (line : bytes) : bool :=
  match line with [] => false | _ :: _ => true end.

Record until_state := mkUntil {
  lines : list bytes;        (* the local list [lines] *)
  dequeued : list bytes;     (* every line taken from the queue, in order *)
  pending : list bytes;      (* the queue *)
  clock : nat                (* time of return *)
}.

(** The body of the loop after [read_line] has returned [res]; the boolean
    tells whether the early [return lines] is taken. *)
Definition until_body (expected : bytes) (res : option bytes)
  (ls dq : list bytes) : bool * list bytes * list bytes :=
  match res with
  | None => (false, ls, dq)
  | Some line =>
      if truthy line
      then (contains expected line, ls ++ [line], dq ++ [line])
      else (false, ls, dq ++ [line])
  end.

(** The iterations that find a line already queued.  [inl] is the early
    [return lines]; [inr] is reached when the queue is empty. *)
Fixpoint poll_available (expected : bytes) (q ls dq : list bytes)
  : list bytes * list bytes * list bytes + list bytes * list bytes :=
  match q with
  | [] => inr (ls, dq)
  | line :: rest =>
      let '(found, ls', dq') := until_body expected (Some line) ls dq in
      if found then inl (ls', dq', rest)
      else poll_available expected rest ls' dq'
  end.

(** [queue.get(timeout=0.1)] on an empty queue: the call blocks until the
    first tick at which lines arrive, for [ticks] ticks at most; the result is
    the time at which it returns and the lines that arrived at that time. *)
Fixpoint await_line (arrivals : nat -> list bytes) (ticks now : nat)
  : nat * list bytes :=
  match ticks with
  | 0 => (now, [])
  | S k =>
      match arrivals (S now) with
      | [] => await_line arrivals k (S now)
      | line :: rest => (S now, line :: rest)
      end
  end.

(** The loop, with [deadline = start_time + timeout].  Every iteration that
    does not find a line waits for one tick at least, so [fuel] above
    [deadline - now] is never used up. *)
Fixpoint read_until_loop (period : nat) (expected : bytes)
  (arrivals : nat -> list bytes) (fuel deadline now : nat)
  (q ls dq : list bytes) : until_state :=
  match fuel with
  | 0 => mkUntil ls dq q now
  | S k =>
      if deadline <=? now then mkUntil ls dq q now
      else
        match poll_available expected q ls dq with
        | inl (ls1, dq1, q1) => mkUntil ls1 dq1 q1 now
        | inr (ls1, dq1) =>
            (* the queue is empty: [get] blocks *)
            let (t, arrived) := await_line arrivals period now in
            let (res, q') := read_line arrived in
            let '(found, ls2, dq2) := until_body expected res ls1 dq1 in
            if found then mkUntil ls2 dq2 q' t
            else read_until_loop period expected arrivals k deadline t q'
                   ls2 dq2
        end
  end.

Definition read_until (period : nat) (expected : bytes) (timeout : nat)
  (output_queue : list bytes) (arrivals : nat -> list bytes) : until_state :=
  read_until_loop period expected arrivals (S timeout) timeout 0
    output_queue [] [].

(** No match of the pattern in a line. *)
Definition nomatch (expected : bytes) (l : bytes) : bool :=
  negb (contains expected l).

(** What holds of [lines] and of the lines taken from the queue while the
    loop runs. *)
Definition until_inv (expected : bytes) (ls dq : list bytes) : Prop :=
  ls = filter truthy dq /\ forallb (nomatch expected) ls = true.

(** What holds when [read_until] returns early. *)
Definition until_found (expected : bytes) (ls dq : list bytes) : Prop :=
  ls = filter truthy dq /\
  exists ls0 l, ls = ls0 ++ [l] /\ contains expected l = true /\
                forallb (nomatch expected) ls0 = true.

(** ** Effects: exceptions, the operating system, the session object *)

Inductive exn :=
| RuntimeError (msg : string)
| AttributeError             (* a method called on [None] *)
| OSError                    (* socket errors: refused, not connected *)
| FileNotFoundError          (* [Popen]: no such executable *)
| TimeoutExpired.            (* [Popen.wait(timeout=...)] *)

Inductive outcome (A : Type) :=
| Ok (a : A)                 (* the call returns [a] *)
| Raise (e : exn)            (* the call raises [e] *)
| Hang.                      (* the call blocks for ever *)
Arguments Ok {A} a.
Arguments Raise {A} e.
Arguments Hang {A}.

Definition M (St A : Type) : Type := St -> outcome A * St.

Definition ret {St A} (a : A) : M St A := fun s => (Ok a, s).

Definition bind {St A B} (m : M St A) (k : A -> M St B) : M St B :=
  fun s =>
    match m s with
    | (Ok a, s') => k a s'
    | (Raise e, s') => (Raise e, s')
    | (Hang, s') => (Hang, s')
    end.

Definition raise {St A} (e : exn) : M St A := fun s => (Raise e, s).

(** [try: m  except: h] with a bare [except]. *)
Definition catch {St A} (m : M St A) (h : exn -> M St A) : M St A :=
  fun s =>
    match m s with
    | (Raise e, s') => h e s'
    | r => r
    end.

Definition gets {St A} (f : St -> A) : M St A := fun s => (Ok (f s), s).

Definition modify {St} (f : St -> St) : M St unit := fun s => (Ok tt, f s).

Declare Scope py_scope.
Delimit Scope py_scope with py.
Notation "x <- c1 ;; c2" := (bind c1 (fun x => c2))
  (at level 61, c1 at next level, right associativity) : py_scope.
Notation "c1 ;; c2" := (bind c1 (fun _ => c2))
  (at level 61, right associativity) : py_scope.
Open Scope py_scope.

(** What the harness does to its environment, in order. *)
Inductive event :=
| EvPopen (pid : nat)
| EvTerminate (pid : nat)
| EvWait (pid : nat)
| EvSocket (fd : nat)
| EvConnect (fd : nat) (ok : bool)
| EvClose (fd : nat)
| EvSend (fd : nat) (data : bytes)
| EvThread (tid : nat).

(** The environment.  Time is counted in periods of 0.1 s. *)
Record World := mkWorld {
  now : nat;                      (* time.time() *)
  launchable : bool;              (* Popen finds qemu-system-x86_64 *)
  listening : nat -> bool;        (* port 5555 accepts a connection at time t *)
  exits_on_term : nat -> bool;    (* the process exits once sent SIGTERM *)
  live : list nat;                (* subprocesses launched and not reaped *)
  opened : list nat;              (* sockets created and not yet close()d *)
  connected : list nat;           (* sockets connected to port 5555 *)
  next_id : nat;
  log : list event                (* oldest first *)
}.

Definition remove_id (x : nat) (l : list nat) : list nat :=
  filter (fun y => negb (y =? x)) l.

Definition mem_id (x : nat) (l : list nat) : bool :=
  existsb (fun y => y =? x) l.

Section Primitives.

(** The object ([self]) the method runs on. *)
Variable Obj : Type.

Record Sys := mkSys { self : Obj; world : World }.

Definition getw {A} (f : World -> A) : M Sys A :=
  gets (fun s => f (world s)).

Definition setw (f : World -> World) : M Sys unit :=
  modify (fun s => mkSys (self s) (f (world s))).

Definition emit (e : event) (w : World) : list event := log w ++ [e].

(** [subprocess.Popen(cmd, ...)] *)
Definition Popen : M Sys nat :=
  ok <- getw launchable ;;
  if ok then
    pid <- getw next_id ;;
    setw (fun w => mkWorld (now w) (launchable w) (listening w)
                     (exits_on_term w) (live w ++ [pid]) (opened w)
                     (connected w) (S pid) (emit (EvPopen pid) w)) ;;
    ret pid
  else raise FileNotFoundError.

(** [process.terminate()] *)
Definition terminate (pid : nat) : M Sys unit :=
  setw (fun w => mkWorld (now w) (launchable w) (listening w)
                   (exits_on_term w) (live w) (opened w) (connected w)
                   (next_id w) (emit (EvTerminate pid) w)).

Definition reap (pid : nat) : M Sys unit :=
  setw (fun w => mkWorld (now w) (launchable w) (listening w)
                   (exits_on_term w) (remove_id pid (live w)) (opened w)
                   (connected w) (next_id w) (emit (EvWait pid) w)).

(** [process.wait(timeout=5)] *)
Definition wait_timeout (pid : nat) : M Sys unit :=
  gone <- getw (fun w => exits_on_term w pid) ;;
  if gone then reap pid else raise TimeoutExpired.

(** [process.wait()] *)
Definition wait (pid : nat) : M Sys unit :=
  gone <- getw (fun w => exits_on_term w pid) ;;
  if gone then reap pid else (fun s => (Hang, s)).

(** [time.sleep(t)] *)
Definition sleep (periods : nat) : M Sys unit :=
  setw (fun w => mkWorld (now w + periods) (launchable w) (listening w)
                   (exits_on_term w) (live w) (opened w) (connected w)
                   (next_id w) (log w)).

(** [socket.socket(socket.AF_INET, socket.SOCK_STREAM)] *)
Definition socket : M Sys nat :=
  fd <- getw next_id ;;
  setw (fun w => mkWorld (now w) (launchable w) (listening w)
                   (exits_on_term w) (live w) (opened w ++ [fd])
                   (connected w) (S fd) (emit (EvSocket fd) w)) ;;
  ret fd.

(** [sock.connect(('localhost', 5555))] *)
Definition connect (fd : nat) : M Sys unit :=
  ok <- getw (fun w => listening w (now w)) ;;
  setw (fun w => mkWorld (now w) (launchable w) (listening w)
                   (exits_on_term w) (live w) (opened w)
                   (if ok then connected w ++ [fd] else connected w)
                   (next_id w) (emit (EvConnect fd ok) w)) ;;
  if ok then ret tt else raise OSError.

(** [sock.settimeout(0.1)] *)
Definition settimeout (fd : nat) : M Sys unit := ret tt.

(** [sock.close()] *)
Definition close (fd : nat) : M Sys unit :=
  setw (fun w => mkWorld (now w) (launchable w) (listening w)
                   (exits_on_term w) (live w) (remove_id fd (opened w))
                   (remove_id fd (connected w)) (next_id w)
                   (emit (EvClose fd) w)).

(** [sock.send(data)] *)
Definition sock_send (fd : nat) (data : bytes) : M Sys unit :=
  ok <- getw (fun w => mem_id fd (connected w)) ;;
  if ok then
    setw (fun w => mkWorld (now w) (launchable w) (listening w)
                     (exits_on_term w) (live w) (opened w) (connected w)
                     (next_id w) (emit (EvSend fd data) w))
  else raise OSError.

(** [threading.Thread(target=...)] followed by [start()] *)
Definition Thread_start : M Sys nat :=
  tid <- getw next_id ;;
  setw (fun w => mkWorld (now w) (launchable w) (listening w)
                   (exits_on_term w) (live w) (opened w) (connected w)
                   (S tid) (emit (EvThread tid) w)) ;;
  ret tid.

End Primitives.

Arguments mkSys {Obj} self world.
Arguments self {Obj} s.
Arguments world {Obj} s.
Arguments getw {Obj A} f.
Arguments setw {Obj} f.
Arguments Popen {Obj}.
Arguments terminate {Obj} pid.
Arguments reap {Obj} pid.
Arguments wait_timeout {Obj} pid.
Arguments wait {Obj} pid.
Arguments sleep {Obj} periods.
Arguments socket {Obj}.
Arguments connect {Obj} fd.
Arguments settimeout {Obj} fd.
Arguments close {Obj} fd.
Arguments sock_send {Obj} fd data.
Arguments Thread_start {Obj}.

(** The argument of [send]: [str] or [bytes]. *)
Inductive pydata :=
| PyStr (s : string)
| PyBytes (d : bytes).

(** [if isinstance(data, str): data = data.encode()] *)
Definition encode (data : pydata) : bytes :=
  match data with
  | PyStr s => list_byte_of_string s
  | PyBytes d => d
  end.

(** ** [QEMURunner] (tests/conftest.py) *)

Module QEMURunner.

Record t := mk {
  process : option nat;
  serial : option nat;
  output_queue : list bytes;
  reader_thread : option nat
}.

(** [__init__] *)
Definition init : t := mk None None [] None.

Definition set_process (p : option nat) : M (Sys t) unit :=
  modify (fun s => mkSys (mk p (serial (self s)) (output_queue (self s))
                            (reader_thread (self s))) (world s)).

Definition set_serial (c : option nat) : M (Sys t) unit :=
  modify (fun s => mkSys (mk (process (self s)) c (output_queue (self s))
                            (reader_thread (self s))) (world s)).

Definition set_output_queue (q : list bytes) : M (Sys t) unit :=
  modify (fun s => mkSys (mk (process (self s)) (serial (self s)) q
                            (reader_thread (self s))) (world s)).

Definition set_reader_thread (r : option nat) : M (Sys t) unit :=
  modify (fun s => mkSys (mk (process (self s)) (serial (self s))
                            (output_queue (self s)) r) (world s)).

(** [stop] *)
Definition stop : M (Sys t) unit :=
  c <- gets (fun s => serial (self s)) ;;
  match c with
  | Some fd => close fd ;; set_serial None
  | None => ret tt
  end ;;
  p <- gets (fun s => process (self s)) ;;
  match p with
  | Some pid => terminate pid ;; wait_timeout pid ;; set_process None
  | None => ret tt
  end.

(** The connection loop of [start].  [remaining] is
    [timeout - (time.time() - start_time)]; a failed attempt sleeps for one
    period, a successful one leaves the loop ([break]). *)
Fixpoint connect_loop (remaining : nat) : M (Sys t) unit :=
  match remaining with
  | 0 => ret tt
  | S k =>
      done <- catch
                (fd <- socket ;;
                 set_serial (Some fd) ;;
                 connect fd ;;
                 settimeout fd ;;
                 ret true)
                (fun _ => sleep 1 ;; ret false) ;;
      if done then ret tt else connect_loop k
  end.

(** [start]; the boot image only enters the emulator's command line.  A
    [Popen] or socket object is true whatever its state, so [if self.process]
    and [if not self.serial] test for [None] only. *)
Definition start (timeout : nat) : M (Sys t) unit :=
  p <- gets (fun s => process (self s)) ;;
  match p with
  | Some _ => stop
  | None => ret tt
  end ;;
  pid <- Popen ;;
  set_process (Some pid) ;;
  sleep 5 ;;
  connect_loop timeout ;;
  c <- gets (fun s => serial (self s)) ;;
  match c with
  | None => raise (RuntimeError "Failed to connect to QEMU serial port")
  | Some _ =>
      tid <- Thread_start ;;
      set_reader_thread (Some tid)
  end.

(** [send] *)
Definition send (data : pydata) : M (Sys t) unit :=
  let data := encode data in
  c <- gets (fun s => serial (self s)) ;;
  match c with
  | None => raise AttributeError
  | Some fd => sock_send fd data
  end.

(** [read_line], called while no producer step intervenes: [get] returns
    the oldest line at once, or gives up after [timeout] periods. *)
Definition read_line (timeout : nat) : M (Sys t) (option bytes) :=
  q <- gets (fun s => output_queue (self s)) ;;
  let (res, q') := read_line q in
  match res with
  | Some _ => set_output_queue q'
  | None => sleep timeout
  end ;;
  ret res.

End QEMURunner.

(** ** [QEMUManager] (setup.py) *)

Module QEMUManager.

Record t := mk {
  process : option nat;
  serial : option nat;
  monitor : option nat
}.

(** [__init__] *)
Definition init : t := mk None None None.

Definition set_process (p : option nat) : M (Sys t) unit :=
  modify (fun s => mkSys (mk p (serial (self s)) (monitor (self s))) (world s)).

Definition set_serial (c : option nat) : M (Sys t) unit :=
  modify (fun s => mkSys (mk (process (self s)) c (monitor (self s))) (world s)).

(** [stop_qemu] *)
Definition stop_qemu : M (Sys t) unit :=
  p <- gets (fun s => process (self s)) ;;
  match p with
  | Some pid => terminate pid ;; wait pid ;; set_process None
  | None => ret tt
  end ;;
  c <- gets (fun s => serial (self s)) ;;
  match c with
  | Some fd => close fd ;; set_serial None
  | None => ret tt
  end.

(** [start_qemu] returns the pair [(success, message)]. *)
Definition start_qemu : M (Sys t) (bool * string) :=
  p <- gets (fun s => process (self s)) ;;
  match p with
  | Some _ => stop_qemu
  | None => ret tt
  end ;;
  pid <- Popen ;;
  set_process (Some pid) ;;
  sleep 10 ;;
  catch
    (fd <- socket ;;
     set_serial (Some fd) ;;
     connect fd ;;
     settimeout fd ;;
     ret (true, "QEMU started successfully"%string))
    (fun _ => ret (false, "Failed to connect to serial port"%string)).

(** [send_serial] *)
Definition send_serial (data : pydata) : M (Sys t) bool :=
  c <- gets (fun s => serial (self s)) ;;
  match c with
  | Some fd => sock_send fd (encode data) ;; ret true
  | None => ret false
  end.

End QEMUManager.

(** ** Sessions as callers drive them *)

Inductive call :=
| CallStart (timeout : nat)
| CallStop
| CallSend (data : pydata)
| CallReadLine (timeout : nat).

(** The state a call leaves, whether it returns or raises. *)
Definition do_call (s : Sys QEMURunner.t) (c : call) : Sys QEMURunner.t :=
  match c with
  | CallStart timeout => snd (QEMURunner.start timeout s)
  | CallStop => snd (QEMURunner.stop s)
  | CallSend data => snd (QEMURunner.send data s)
  | CallReadLine timeout => snd (QEMURunner.read_line timeout s)
  end.

(** The subprocesses alive are exactly the one the session records. *)
Definition one_live (s : Sys QEMURunner.t) : Prop :=
  live (world s) =
  match QEMURunner.process (self s) with
  | Some pid => [pid]
  | None => []
  end.

(** The same for a manager. *)
Definition manager_one_live (m : Sys QEMUManager.t) : Prop :=
  live (world m) =
  match QEMUManager.process (self m) with
  | Some pid => [pid]
  | None => []
  end.

(** Whether, in a log, socket [fd] is closed before process [pid] is sent
    SIGTERM. *)
Fixpoint closed_before_terminated (fd pid : nat) (l : list event) : bool :=
  match l with
  | [] => false
  | EvClose fd' :: rest =>
      if fd' =? fd then true else closed_before_terminated fd pid rest
  | EvTerminate pid' :: rest =>
      if pid' =? pid then false else closed_before_terminated fd pid rest
  | _ :: rest => closed_before_terminated fd pid rest
  end.

(** ** Specifications of methods *)

(** [wp m Q s]: running [m] from [s] ends in an outcome and a state that
    satisfy [Q]. *)
Definition wp {St A} (m : M St A) (Q : outcome A -> St -> Prop) (s : St) : Prop :=
  Q (fst (m s)) (snd (m s)).

(** What [stop] leaves behind. *)
Definition stop_post (s : Sys QEMURunner.t) (r : outcome unit)
  (s' : Sys QEMURunner.t) : Prop :=
  QEMURunner.output_queue (self s') = QEMURunner.output_queue (self s) /\
  QEMURunner.serial (self s') = None /\
  exits_on_term (world s') = exits_on_term (world s) /\
  match r with
  | Ok _ =>
      QEMURunner.process (self s') = None /\
      match QEMURunner.process (self s) with
      | Some pid => live (world s') = remove_id pid (live (world s))
      | None => live (world s') = live (world s)
      end
  | Raise e =>
      e = TimeoutExpired /\
      QEMURunner.process (self s') = QEMURunner.process (self s) /\
      live (world s') = live (world s)
  | Hang => False
  end.

(** What the connection loop leaves behind: it always returns, and touches
    neither the subprocess nor the queue. *)
Definition loop_post (s s' : Sys QEMURunner.t) : Prop :=
  QEMURunner.process (self s') = QEMURunner.process (self s) /\
  QEMURunner.output_queue (self s') = QEMURunner.output_queue (self s) /\
  QEMURunner.reader_thread (self s') = QEMURunner.reader_thread (self s) /\
  live (world s') = live (world s) /\
  exits_on_term (world s') = exits_on_term (world s) /\
  (QEMURunner.serial (self s') = None -> QEMURunner.serial (self s) = None).

(** What [start] leaves behind. *)
Definition start_post (s : Sys QEMURunner.t) (r : outcome unit)
  (s' : Sys QEMURunner.t) : Prop :=
  QEMURunner.output_queue (self s') = QEMURunner.output_queue (self s) /\
  exits_on_term (world s') = exits_on_term (world s) /\
  (one_live s -> one_live s') /\
  match r with
  | Ok _ =>
      QEMURunner.serial (self s') <> None /\
      QEMURunner.reader_thread (self s') <> None
  | Raise (RuntimeError _) =>
      QEMURunner.serial (self s') = None /\
      exists pid, QEMURunner.process (self s') = Some pid /\
                  In pid (live (world s'))
  | Raise _ => True
  | Hang => False
  end.

(** ** The rest of the control plane (setup.py)

    The files [boot.asm] and [boot.bin] are outside the environment modelled
    here; the assembler is given by what it answers. *)

Inductive nasm_result :=
| NasmOk                       (* exit status 0 *)
| NasmError (stderr : string)  (* CalledProcessError *)
| NasmMissing.                 (* no nasm executable: FileNotFoundError *)

Section ControlPlane.

(** [subprocess.run(['nasm', ...], check=True, capture_output=True, text=True)]
    on the given source. *)
Variable nasm : string -> nasm_result.

(** [QEMUManager.compile_bootloader] *)
Definition compile_bootloader (asm_code : string)
  : M (Sys QEMUManager.t) (bool * string) :=
  match nasm asm_code with
  | NasmOk => ret (true, "Compilation successful"%string)
  | NasmError stderr =>
      ret (false, ("Compilation failed: " ++ stderr)%string)
  | NasmMissing => raise FileNotFoundError
  end.

(** The route [POST /flash]; [code] is [request.json.get('code')] when the
    key is present. *)
Definition flash (code : option string)
  : M (Sys QEMUManager.t) (bool * string) :=
  match code with
  | Some c =>
      r <- compile_bootloader c ;;
      if fst r then QEMUManager.start_qemu else ret (false, snd r)
  | None => QEMUManager.start_qemu
  end.

(** The route [POST /reset]. *)
Definition reset : M (Sys QEMUManager.t) (bool * string) :=
  QEMUManager.stop_qemu ;; QEMUManager.start_qemu.

(** The route [POST /serial]. *)
Definition send_serial_route (data : pydata) : M (Sys QEMUManager.t) bool :=
  QEMUManager.send_serial data.

Inductive route :=
| PostFlash (code : option string)
| PostReset
| PostSerial (data : pydata).

(** The state a request leaves. *)
Definition do_route (m : Sys QEMUManager.t) (r : route) : Sys QEMUManager.t :=
  match r with
  | PostFlash code => snd (flash code m)
  | PostReset => snd (reset m)
  | PostSerial data => snd (send_serial_route data m)
  end.

End ControlPlane.

(** [QEMUManager.read_serial].  setup.py imports [socket] only inside
    [start_qemu], so in [read_serial] the clause [except socket.timeout] cannot
    be evaluated: whenever the [try] body raises, a [NameError] leaves the
    method, and the bare [except] after it is never reached. *)
Inductive name_error := NameError (name : string).

Definition read_serial (m : QEMUManager.t) (r : recv_result)
  : bytes + name_error :=
  match QEMUManager.serial m with
  | None => inl []
  | Some _ =>
      match r with
      | Data data => inl data
      | Timeout | OtherError => inr (NameError "socket")
      end
  end.

(** ** Prerequisite check of scripts/check_workflow.py *)

(** What [subprocess.run(cmd, shell=True, capture_output=True, text=True)]
    gives: a completed process, or an exception with its text [str(e)]. *)
Record CompletedProcess := mkCompleted {
  returncode : Z;
  stdout : string;
  stderr : string
}.

Inductive run_result :=
| Completed (p : CompletedProcess)
| RunError (msg : string).

Section CheckWorkflow.

Variable shell : string -> run_result.

(** [str.strip] *)
Variable str_strip : string -> string.

(** [run_command] returns the pair [(output, error)]. *)
Definition run_command (cmd : string) : option string * option string :=
  match shell cmd with
  | Completed p =>
      if (returncode p =? 0)%Z
      then (Some (str_strip (stdout p)), None)
      else (None, Some (stderr p))
  | RunError msg => (None, Some msg)
  end.

(** Truth value of [error] in [if error]: [None] and [''] are false. *)
Definition error_set (error : option string) : bool :=
  match error with
  | None => false
  | Some EmptyString => false
  | Some (String _ _) => true
  end.

(** [check_gh_cli] *)
Definition check_gh_cli : bool * string :=
  let (_, error) := run_command "gh --version" in
  if error_set error then (false, "GitHub CLI (gh) not installed"%string)
  else
    let (_, error) := run_command "gh auth status" in
    if error_set error
    then (false, "GitHub CLI not authenticated. Run: gh auth login"%string)
    else (true, "GitHub CLI ready"%string).

(** A command that leaves no error text: it exits with status 0, or fails
    with nothing on its standard error, or raises with an empty text. *)
Definition quiet (cmd : string) : Prop :=
  match shell cmd with
  | Completed p => returncode p = 0%Z \/ stderr p = EmptyString
  | RunError msg => msg = EmptyString
  end.

End CheckWorkflow.

(** ** Predicates and encodings used to state further properties *)

(** A line without newline byte that neither begins nor ends with ASCII
    whitespace. *)
Definition clean_line (l : bytes) : Prop :=
  ~ In nl l /\
  (forall c r, l = c :: r -> isspace c = false) /\
  (forall r c, l = r ++ [c] -> isspace c = false).

(** The number of newline bytes in a stream. *)
Definition count_nl (stream : bytes) : nat := length (filter is_nl stream).

(** Lines as a sender writes them, each followed by LF, or by CRLF when
    [crlf] is set (the tests write [line + b'\n']). *)
Fixpoint wire_lines (crlf : bool) (ls : list bytes) : bytes :=
  match ls with
  | [] => []
  | l :: rest =>
      (l ++ if crlf then [x0d; nl] else [nl]) ++ wire_lines crlf rest
  end.

(** ** Environments used in examples *)

(** The emulator can be launched, but nothing ever listens on port 5555
    (as when the boot image is missing). *)
Definition w_idle : World :=
  mkWorld 0 true (fun _ => false) (fun _ => true) [] [] [] 0 [].

(** The emulator can be launched and listens on port 5555. *)
Definition w_ready : World :=
  mkWorld 0 true (fun _ => true) (fun _ => true) [] [] [] 0 [].

(** * Properties *)

(** ** Whitespace trimming *)

Lemma lstrip_decomp (l : bytes) :
  exists pre, l = pre ++ lstrip l /\ forallb isspace pre = true.
Proof.
  induction l as [|c r [pre [Hr Hpre]]]; simpl.
  - exists []. split; reflexivity.
  - destruct (isspace c) eqn:Hc.
    + exists (c :: pre). simpl. rewrite Hc, Hpre. split; [f_equal; exact Hr | reflexivity].
    + exists []. split; reflexivity.
Qed.

Lemma lstrip_head (l : bytes) c r : lstrip l = c :: r -> isspace c = false.
Proof.
  induction l as [|x l IH]; simpl; [discriminate|].
  destruct (isspace x) eqn:Hx; [exact IH|].
  intros [= <- _]. exact Hx.
Qed.

Lemma forallb_rev {A} (f : A -> bool) (l : list A) :
  forallb f (rev l) = forallb f l.
Proof.
  induction l as [|x l IH]; simpl; [reflexivity|].
  rewrite forallb_app, IH. simpl. rewrite andb_true_r. apply andb_comm.
Qed.

Lemma rstrip_decomp (l : bytes) :
  exists post, l = rstrip l ++ post /\ forallb isspace post = true.
Proof.
  unfold rstrip. destruct (lstrip_decomp (rev l)) as [pre [H Hpre]].
  exists (rev pre). split.
  - rewrite <- rev_app_distr, <- H, rev_involutive. reflexivity.
  - rewrite forallb_rev. exact Hpre.
Qed.

Lemma rstrip_last (l : bytes) r c : rstrip l = r ++ [c] -> isspace c = false.
Proof.
  unfold rstrip. intros H.
  apply (f_equal (@rev byte)) in H.
  rewrite rev_involutive, rev_app_distr in H. simpl in H.
  eapply lstrip_head; eauto.
Qed.

(** [strip] splits a line into blank bytes, the kept part, blank bytes. *)
Lemma strip_decomp (line : bytes) :
  exists pre post,
    line = pre ++ strip line ++ post /\
    forallb isspace pre = true /\ forallb isspace post = true.
Proof.
  unfold strip.
  destruct (lstrip_decomp line) as [pre [H Hpre]].
  destruct (rstrip_decomp (lstrip line)) as [post [H' Hpost]].
  exists pre, post. repeat split; try assumption.
  rewrite <- H'. exact H.
Qed.

Lemma strip_ends (line : bytes) :
  (forall c r, strip line = c :: r -> isspace c = false) /\
  (forall r c, strip line = r ++ [c] -> isspace c = false).
Proof.
  split.
  - unfold strip. intros c r H.
    destruct (lstrip line) as [|x l] eqn:Hl.
    + discriminate.
    + pose proof (lstrip_head _ _ _ Hl) as Hx.
      destruct (rstrip_decomp (x :: l)) as [post [E _]].
      rewrite H in E. injection E as -> _. exact Hx.
  - intros r c. apply rstrip_last.
Qed.

(** ** Splitting at the first newline *)

Lemma is_nl_true c : is_nl c = true <-> c = nl.
Proof.
  unfold is_nl. split.
  - apply byte_dec_bl.
  - apply byte_dec_lb.
Qed.

Lemma split_nl_Some buffer line rest :
  split_nl buffer = Some (line, rest) ->
  buffer = line ++ nl :: rest /\ ~ In nl line.
Proof.
  revert line rest. induction buffer as [|c r IH]; intros line rest; simpl.
  - discriminate.
  - destruct (is_nl c) eqn:Hc.
    + intros [= <- <-]. apply is_nl_true in Hc. subst c. simpl. tauto.
    + destruct (split_nl r) as [[l' r']|]; [|discriminate].
      intros [= <- <-]. destruct (IH _ _ eq_refl) as [-> Hn].
      split; [reflexivity|]. simpl. intros [->|H]; [|tauto].
      assert (is_nl nl = true) by (apply is_nl_true; reflexivity). congruence.
Qed.

Lemma split_nl_None buffer : split_nl buffer = None <-> ~ In nl buffer.
Proof.
  induction buffer as [|c r IH]; simpl.
  - tauto.
  - destruct (is_nl c) eqn:Hc.
    + apply is_nl_true in Hc. subst c. split; [discriminate|tauto].
    + assert (nl <> c).
      { intros <-. assert (is_nl nl = true) by (apply is_nl_true; reflexivity).
        congruence. }
      destruct (split_nl r) as [[l' r']|].
      * split; [discriminate|]. intros Hn.
        assert (Hr : ~ In nl r) by tauto. apply IH in Hr. discriminate.
      * split; [|reflexivity]. intros _ [E|Hin]; [congruence|].
        apply IH in Hin; [exact Hin|reflexivity].
Qed.

(** ** The framing loop *)

Lemma frame_lines_None buffer q :
  split_nl buffer = None -> frame_lines buffer q = (buffer, q).
Proof.
  intros H. funelim (frame_lines buffer q).
  - congruence.
  - reflexivity.
Qed.

Lemma frame_lines_Some buffer q line rest :
  split_nl buffer = Some (line, rest) ->
  frame_lines buffer q = frame_lines rest (q ++ [strip line]).
Proof.
  intros H. funelim (frame_lines buffer q).
  - rewrite e in H1. injection H1 as <- <-. reflexivity.
  - congruence.
Qed.

(** Induction along the iterations of the loop. *)
Lemma frame_loop_ind (P : bytes -> Prop) :
  (forall buffer,
      (forall line rest, split_nl buffer = Some (line, rest) -> P rest) ->
      P buffer) ->
  forall buffer, P buffer.
Proof.
  intros step buffer.
  induction buffer as [buffer IH] using (induction_ltof1 _ (@length byte)).
  apply step. intros line rest H. apply IH. unfold ltof.
  apply split_nl_Some in H. destruct H as [-> _].
  rewrite length_app. simpl. lia.
Qed.

Ltac loop_induction buffer IH :=
  pattern buffer; apply frame_loop_ind; clear buffer; intros buffer IH.

Lemma split_nl_app buffer data line rest :
  split_nl buffer = Some (line, rest) ->
  split_nl (buffer ++ data) = Some (line, rest ++ data).
Proof.
  revert line rest. induction buffer as [|c r IH]; intros line rest; simpl.
  - discriminate.
  - destruct (is_nl c).
    + intros [= <- <-]. reflexivity.
    + destruct (split_nl r) as [[l' r']|]; [|discriminate].
      intros [= <- <-]. rewrite (IH _ _ eq_refl). reflexivity.
Qed.

(** Framing a buffer extended by [data] is framing the buffer first and
    then what is left of it, extended by [data]. *)
Lemma frame_lines_app data buffer : forall q,
  frame_lines (buffer ++ data) q =
  frame_lines (fst (frame_lines buffer q) ++ data) (snd (frame_lines buffer q)).
Proof.
  loop_induction buffer IH. intros q.
  destruct (split_nl buffer) as [[line rest]|] eqn:E.
  - rewrite (frame_lines_Some _ _ _ _ (split_nl_app _ data _ _ E)).
    rewrite (frame_lines_Some _ _ _ _ E). apply (IH _ _ eq_refl).
  - rewrite (frame_lines_None _ _ E). reflexivity.
Qed.

(** The loop leaves no delimiter in the buffer. *)
Lemma frame_lines_rest buffer : forall q,
  split_nl (fst (frame_lines buffer q)) = None.
Proof.
  loop_induction buffer IH. intros q.
  destruct (split_nl buffer) as [[line rest]|] eqn:E.
  - rewrite (frame_lines_Some _ _ _ _ E). apply (IH _ _ eq_refl).
  - rewrite (frame_lines_None _ _ E). exact E.
Qed.

(** The loop only appends to the queue, and what it appends does not depend
    on what the queue holds. *)
Lemma frame_lines_queue buffer : forall q,
  frame_lines buffer q =
  (fst (frame_lines buffer []), q ++ snd (frame_lines buffer [])).
Proof.
  loop_induction buffer IH. intros q.
  destruct (split_nl buffer) as [[line rest]|] eqn:E.
  - rewrite !(frame_lines_Some _ _ _ _ E).
    rewrite (IH _ _ eq_refl (q ++ [strip line])), (IH _ _ eq_refl ([] ++ [strip line])).
    simpl. rewrite <- app_assoc. reflexivity.
  - rewrite !(frame_lines_None _ _ E). simpl. rewrite app_nil_r. reflexivity.
Qed.

(** What the loop enqueues: the buffer is a run of newline-terminated
    segments followed by a part without newline; the segments are enqueued
    trimmed, the last part stays in the buffer. *)
Lemma frame_lines_segments buffer : forall q,
  exists segs,
    buffer = concat (map (fun s => s ++ [nl]) segs) ++ fst (frame_lines buffer q) /\
    Forall (fun s => ~ In nl s) segs /\
    ~ In nl (fst (frame_lines buffer q)) /\
    snd (frame_lines buffer q) = q ++ map strip segs.
Proof.
  loop_induction buffer IH. intros q.
  destruct (split_nl buffer) as [[line rest]|] eqn:E.
  - rewrite (frame_lines_Some _ _ _ _ E).
    destruct (IH _ _ eq_refl (q ++ [strip line])) as [segs [H1 [H2 [H3 H4]]]].
    destruct (split_nl_Some _ _ _ E) as [Hb Hl].
    exists (line :: segs). repeat split.
    + simpl. rewrite <- !app_assoc. simpl. rewrite <- H1. exact Hb.
    + constructor; assumption.
    + exact H3.
    + rewrite H4. simpl. rewrite <- app_assoc. reflexivity.
  - rewrite (frame_lines_None _ _ E). exists []. simpl.
    rewrite app_nil_r. repeat split.
    + constructor.
    + apply split_nl_None. exact E.
Qed.

(** ** The reader loop *)

Lemma on_data_frame buffer q data :
  split_nl buffer = None ->
  on_data buffer q data = frame_lines (buffer ++ data) q.
Proof.
  intros H. destruct data as [|c d]; simpl.
  - rewrite app_nil_r. symmetry. apply frame_lines_None. exact H.
  - reflexivity.
Qed.

Lemma reader_cons o obs st :
  _reader (o :: obs) st = _reader obs (reader_iter st o).
Proof. reflexivity. Qed.

Lemma reader_iter_exited st o : status st = Exited -> reader_iter st o = st.
Proof. intros H. unfold reader_iter. rewrite H. reflexivity. Qed.

Lemma reader_exited obs : forall st,
  status st = Exited -> _reader obs st = st.
Proof.
  induction obs as [|o obs IH]; intros st H; [reflexivity|].
  rewrite reader_cons, (reader_iter_exited _ o H). apply IH. exact H.
Qed.

Lemma reader_iter_ends st o :
  status st = Looping -> ends_loop o = true ->
  reader_iter st o = mkReader (buffer st) (queue st) Exited.
Proof.
  intros H E. unfold reader_iter. rewrite H.
  destruct o as [|[data| |]]; try discriminate; reflexivity.
Qed.

Lemma reader_iter_data st data :
  status st = Looping ->
  reader_iter st (Recv (Data data)) =
  mkReader (fst (on_data (buffer st) (queue st) data))
           (snd (on_data (buffer st) (queue st) data)) Looping.
Proof.
  intros H. unfold reader_iter. rewrite H.
  destruct (on_data (buffer st) (queue st) data). reflexivity.
Qed.

Lemma reader_iter_timeout st : reader_iter st (Recv Timeout) = st.
Proof. unfold reader_iter. destruct (status st); reflexivity. Qed.

(** The state of the reader after any observations: the received bytes,
    framed in one go. *)
Lemma reader_run obs : forall st,
  status st = Looping ->
  split_nl (buffer st) = None ->
  (buffer (_reader obs st), queue (_reader obs st)) =
    frame_lines (buffer st ++ received obs) (queue st) /\
  status (_reader obs st) = if existsb ends_loop obs then Exited else Looping.
Proof.
  induction obs as [|o obs IH]; intros st Hs Hb.
  - simpl. rewrite app_nil_r, (frame_lines_None _ _ Hb). auto.
  - rewrite reader_cons. simpl received. simpl existsb.
    destruct (ends_loop o) eqn:Ho.
    + rewrite (reader_iter_ends _ _ Hs Ho).
      rewrite reader_exited by reflexivity. simpl.
      rewrite app_nil_r, (frame_lines_None _ _ Hb). auto.
    + destruct o as [|[data| |]]; try discriminate.
      * rewrite (reader_iter_data _ _ Hs), (on_data_frame _ _ _ Hb).
        pose proof (frame_lines_rest (buffer st ++ data) (queue st)) as Hn.
        destruct (IH (mkReader (fst (frame_lines (buffer st ++ data) (queue st)))
                               (snd (frame_lines (buffer st ++ data) (queue st)))
                               Looping) eq_refl Hn) as [IH1 IH2].
        split; [|exact IH2].
        rewrite IH1. simpl. rewrite app_assoc.
        rewrite (frame_lines_app (received obs) (buffer st ++ data)).
        reflexivity.
      * rewrite reader_iter_timeout. apply IH; assumption.
Qed.

(** ** Chunk-boundary independence *)

Lemma received_stream (rs : list (option bytes)) :
  received (map recv_obs rs) = stream_of rs.
Proof.
  induction rs as [|[d|] rs IH]; simpl; [reflexivity| |exact IH].
  now rewrite IH.
Qed.

Lemma ends_loop_stream (rs : list (option bytes)) :
  existsb ends_loop (map recv_obs rs) = false.
Proof.
  induction rs as [|[d|] rs IH]; simpl; [reflexivity|exact IH|exact IH].
Qed.

(** C3.  However a byte stream is cut into chunks that successive [recv]
    calls return, with any number of timeouts in between, the reader ends in
    the same state, hence with the same lines enqueued in the same order, as
    when the whole stream comes back from one single [recv]. *)
Theorem chunk_boundary_independence (rs : list (option bytes)) (q : list bytes) :
  _reader (map recv_obs rs) (reader_init q) =
  _reader [Recv (Data (stream_of rs))] (reader_init q).
Proof.
  pose proof (received_stream rs) as Hrecv.
  pose proof (ends_loop_stream rs) as Hends.
  destruct (reader_run (map recv_obs rs) (reader_init q) eq_refl eq_refl)
    as [H1 H2].
  destruct (reader_run [Recv (Data (stream_of rs))]
              (reader_init q) eq_refl eq_refl) as [H3 H4].
  rewrite Hrecv in H1. rewrite Hends in H2.
  simpl received in H3. rewrite app_nil_r in H3. simpl existsb in H4.
  rewrite <- H3 in H1.
  destruct (_reader (map _ rs) _) as [b1 q1 s1].
  destruct (_reader [_] _) as [b2 q2 s2].
  simpl in *. congruence.
Qed.

(** The scenario of two arrivals split in the middle of a word. *)
Example split_mid_word :
  queue (_reader (map recv_obs [Some (b "AI-OS Boot v0.3" ++ [nl] ++ b "Ready for");
                                None;
                                Some (b " commands" ++ [nl])])
           (reader_init [])) =
  [b "AI-OS Boot v0.3"; b "Ready for commands"].
Proof. reflexivity. Qed.

(** ** Trimming of emitted lines *)

(** C5 as stated fails: leading whitespace of a line is trimmed as well. *)
Lemma leading_whitespace_not_preserved :
  split_nl (b "  PONG " ++ [nl]) = Some (b "  PONG ", []) /\
  frame_lines (b "  PONG " ++ [nl]) [] = ([], [b "PONG"]) /\
  rstrip (b "  PONG ") = b "  PONG" /\
  snd (frame_lines (b "  PONG " ++ [nl]) []) <> [rstrip (b "  PONG ")].
Proof.
  repeat split; try reflexivity.
  intros H. vm_compute in H. discriminate.
Qed.

(** C5, amended.  Every line the framer emits is the buffer prefix up to the
    first newline with the ASCII whitespace trimmed at both ends: the
    prefix is blank bytes, the emitted line, blank bytes, and the emitted
    line neither starts nor ends with a blank byte. *)
Theorem emitted_line_is_stripped_prefix
  (buffer line rest : bytes) (q : list bytes) :
  split_nl buffer = Some (line, rest) ->
  buffer = line ++ nl :: rest /\ ~ In nl line /\
  frame_lines buffer q = frame_lines rest (q ++ [strip line]) /\
  (exists pre post,
      line = pre ++ strip line ++ post /\
      forallb isspace pre = true /\ forallb isspace post = true) /\
  (forall c r, strip line = c :: r -> isspace c = false) /\
  (forall r c, strip line = r ++ [c] -> isspace c = false).
Proof.
  intros H. destruct (split_nl_Some _ _ _ H) as [Hb Hn].
  repeat split; try assumption.
  - apply frame_lines_Some. exact H.
  - apply strip_decomp.
  - apply strip_ends.
  - apply strip_ends.
Qed.

Lemma emitted_line_is_stripped_prefix_witness :
  let buffer := b "  PONG " ++ [nl] ++ b "x" in
  let line := b "  PONG " in
  let rest := b "x" in
  split_nl buffer = Some (line, rest) /\
  (buffer = line ++ nl :: rest /\ ~ In nl line /\
   frame_lines buffer [] = frame_lines rest ([] ++ [strip line]) /\
   (exists pre post,
       line = pre ++ strip line ++ post /\
       forallb isspace pre = true /\ forallb isspace post = true) /\
   (forall c r, strip line = c :: r -> isspace c = false) /\
   (forall r c, strip line = r ++ [c] -> isspace c = false)).
Proof.
  split; [reflexivity|].
  apply (emitted_line_is_stripped_prefix
           (b "  PONG " ++ [nl] ++ b "x") (b "  PONG ") (b "x") []).
  reflexivity.
Defined.

(** ** Termination of the reader loop *)

(** C8.  A [recv] timeout leaves the reader as it is: still looping, nothing
    enqueued; and the loop has ended only if some iteration found
    [self.serial] unset (the stop signal) or had [recv] fail with an error
    other than a timeout (the connection closed or broken). *)
Theorem reader_survives_timeouts (obs : list reader_obs) (q : list bytes) :
  (forall st, reader_iter st (Recv Timeout) = st) /\
  (status (_reader obs (reader_init q)) = Exited <->
   exists o, In o obs /\ (o = SerialNone \/ o = Recv OtherError)).
Proof.
  split; [apply reader_iter_timeout|].
  destruct (reader_run obs (reader_init q) eq_refl eq_refl) as [_ Hs].
  rewrite Hs. split.
  - destruct (existsb ends_loop obs) eqn:E; [|discriminate].
    intros _. apply existsb_exists in E. destruct E as [o [Hin Ho]].
    exists o. split; [exact Hin|].
    destruct o as [|[data| |]]; try discriminate; auto.
  - intros [o [Hin Ho]].
    assert (E : existsb ends_loop obs = true).
    { apply existsb_exists. exists o. split; [exact Hin|].
      destruct Ho as [-> | ->]; reflexivity. }
    rewrite E. reflexivity.
Qed.

(** ** Order of delivery *)

(** Lines taken from the head of the queue do not change what the reader
    does to the rest. *)
Lemma reader_iter_prefix (pre : list bytes) (r : reader_state) (o : reader_obs) :
  reader_iter (mkReader (buffer r) (pre ++ queue r) (status r)) o =
  mkReader (buffer (reader_iter r o)) (pre ++ queue (reader_iter r o))
           (status (reader_iter r o)).
Proof.
  unfold reader_iter. simpl. destruct (status r) eqn:Es; [|now rewrite Es].
  destruct o as [|[data| |]]; simpl; try rewrite Es; try reflexivity.
  unfold on_data. destruct data as [|c d]; [reflexivity|].
  rewrite (frame_lines_queue _ (pre ++ queue r)).
  rewrite (frame_lines_queue _ (queue r)).
  simpl. rewrite app_assoc. reflexivity.
Qed.

Lemma lines_of_app (r1 r2 : list (option bytes)) :
  lines_of (r1 ++ r2) = lines_of r1 ++ lines_of r2.
Proof.
  induction r1 as [|[l|] r1 IH]; simpl; [reflexivity| |exact IH].
  now rewrite IH.
Qed.

(** The invariant of a schedule: the lines handed out so far, followed by
    the lines still queued, are the queue of the reader run alone. *)
Lemma sched_invariant (evs : list sched_event) :
  forall (r : reader_state) (results : list (option bytes)),
    _reader (producer_obs evs)
      (mkReader (buffer r) (lines_of results ++ queue r) (status r)) =
    mkReader (buffer (fst (run_sched evs (r, results))))
             (lines_of (snd (run_sched evs (r, results))) ++
              queue (fst (run_sched evs (r, results))))
             (status (fst (run_sched evs (r, results)))).
Proof.
  induction evs as [|e evs IH]; intros r results; [reflexivity|].
  destruct e as [o|].
  - simpl producer_obs. rewrite reader_cons.
    rewrite reader_iter_prefix.
    change (run_sched (Producer o :: evs) (r, results))
      with (run_sched evs (reader_iter r o, results)).
    apply IH.
  - simpl producer_obs.
    change (run_sched (Consumer :: evs) (r, results))
      with (run_sched evs (sched_step (r, results) Consumer)).
    destruct (queue r) as [|l q'] eqn:Eq.
    + replace (sched_step (r, results) Consumer)
        with (mkReader (buffer r) [] (status r), results ++ [None])
        by (unfold sched_step; rewrite Eq; reflexivity).
      rewrite <- (IH (mkReader (buffer r) [] (status r)) (results ++ [None])).
      simpl. rewrite lines_of_app. simpl. rewrite !app_nil_r. reflexivity.
    + replace (sched_step (r, results) Consumer)
        with (mkReader (buffer r) q' (status r), results ++ [Some l])
        by (unfold sched_step; rewrite Eq; reflexivity).
      rewrite <- (IH (mkReader (buffer r) q' (status r)) (results ++ [Some l])).
      simpl. rewrite lines_of_app. simpl. rewrite <- app_assoc. reflexivity.
Qed.

(** C6.  With one reader thread and any interleaving of its iterations with
    [read_line] calls, the lines that the calls have returned, followed by the
    lines still queued, are the lines that the reader framed from the bytes it
    received, in the order it framed them; and a further [read_line] call
    returns the first framed line not returned yet, taking exactly that line
    from the queue, or [None] when every framed line has been returned:
    nothing is reordered, duplicated or lost. *)
Theorem lines_delivered_in_framing_order (evs : list sched_event) :
  let final := run_sched evs (reader_init [], []) in
  let framed := queue (_reader (producer_obs evs) (reader_init [])) in
  lines_of (snd final) ++ queue (fst final) = framed /\
  framed = snd (frame_lines (received (producer_obs evs)) []) /\
  run_sched (evs ++ [Consumer]) (reader_init [], []) =
    (mkReader (buffer (fst final)) (tl (queue (fst final)))
              (status (fst final)),
     snd final ++ [nth_error framed (length (lines_of (snd final)))]).
Proof.
  intros final framed.
  assert (H1 : lines_of (snd final) ++ queue (fst final) = framed).
  { subst final framed.
    pose proof (sched_invariant evs (reader_init []) []) as H.
    simpl in H. unfold reader_init. rewrite H. reflexivity. }
  split; [exact H1|]. split.
  - subst framed.
    destruct (reader_run (producer_obs evs) (reader_init []) eq_refl eq_refl)
      as [H _].
    simpl in H. rewrite <- H. reflexivity.
  - rewrite <- H1. unfold run_sched. rewrite fold_left_app.
    fold (run_sched evs (reader_init [], [])). fold final.
    destruct final as [r results]. simpl fst. simpl snd.
    rewrite nth_error_app2 by lia. rewrite Nat.sub_diag.
    simpl. destruct (queue r) as [|l rest]; reflexivity.
Qed.

(** ** [read_until] *)

Lemma until_body_cases expected res ls dq :
  until_inv expected ls dq ->
  match until_body expected res ls dq with
  | (true, ls', dq') =>
      until_found expected ls' dq' /\
      exists l, res = Some l /\ dq' = dq ++ [l]
  | (false, ls', dq') =>
      until_inv expected ls' dq' /\
      dq' = dq ++ match res with Some l => [l] | None => [] end
  end.
Proof.
  intros [H1 H2]. unfold until_body.
  destruct res as [l|]; [|now rewrite app_nil_r].
  destruct (truthy l) eqn:Ht.
  - destruct (contains expected l) eqn:Hc.
    + split; [|exists l; auto]. split.
      * rewrite filter_app. simpl. rewrite Ht. now rewrite H1.
      * exists ls, l. auto.
    + split; [|reflexivity]. split.
      * rewrite filter_app. simpl. rewrite Ht. now rewrite H1.
      * rewrite forallb_app, H2. simpl. unfold nomatch. now rewrite Hc.
  - split; [|reflexivity]. split; [|exact H2].
    rewrite filter_app. simpl. rewrite Ht, app_nil_r. exact H1.
Qed.

Lemma poll_available_cons expected l q ls dq :
  poll_available expected (l :: q) ls dq =
  let '(found, ls', dq') := until_body expected (Some l) ls dq in
  if found then inl (ls', dq', q) else poll_available expected q ls' dq'.
Proof. reflexivity. Qed.

Lemma poll_available_cases expected q : forall ls dq,
  until_inv expected ls dq ->
  match poll_available expected q ls dq with
  | inl (ls', dq', q') => until_found expected ls' dq' /\ dq' ++ q' = dq ++ q
  | inr (ls', dq') => until_inv expected ls' dq' /\ dq' = dq ++ q
  end.
Proof.
  induction q as [|l q IH]; intros ls dq Hinv.
  - simpl. now rewrite app_nil_r.
  - rewrite poll_available_cons.
    pose proof (until_body_cases expected (Some l) ls dq Hinv) as Hb.
    destruct (until_body expected (Some l) ls dq) as [[found ls'] dq'].
    destruct found; cbv iota beta in Hb.
    + destruct Hb as [Hf [l' [E ->]]]. injection E as <-.
      split; [exact Hf|].
      now rewrite <- app_assoc.
    + destruct Hb as [Hi ->]. specialize (IH _ _ Hi).
      destruct (poll_available expected q ls' (dq ++ [l])) as [[[a c] d]|[a c]];
        rewrite <- app_assoc in IH; exact IH.
Qed.

Lemma await_line_spec (arrivals : nat -> list bytes) (ticks : nat) :
  forall now,
    now <= fst (await_line arrivals ticks now) <= now + ticks /\
    concat (map arrivals
              (seq (S now) (fst (await_line arrivals ticks now) - now)))
      = snd (await_line arrivals ticks now) /\
    (snd (await_line arrivals ticks now) = [] ->
     fst (await_line arrivals ticks now) = now + ticks).
Proof.
  induction ticks as [|k IH]; intros now; cbn [await_line].
  - cbn [fst snd]. rewrite Nat.sub_diag. simpl. repeat split; lia.
  - destruct (arrivals (S now)) as [|l rest] eqn:E.
    + destruct (IH (S now)) as [[B1 B2] [C D]].
      split; [lia|]. split.
      * replace (fst (await_line arrivals k (S now)) - now)
          with (S (fst (await_line arrivals k (S now)) - S now)) by lia.
        simpl. rewrite E. exact C.
      * intros H. rewrite (D H). lia.
    + cbn [fst snd]. replace (S now - now) with 1 by lia.
      cbn [seq map concat]. rewrite E, app_nil_r.
      repeat split; try lia. discriminate.
Qed.

(** A blocking [get] with a positive time-out returns later than it was
    called. *)
Lemma await_line_progress (arrivals : nat -> list bytes) (ticks now : nat) :
  0 < ticks -> now < fst (await_line arrivals ticks now).
Proof.
  intros Hp. destruct (await_line_spec arrivals ticks now) as [[B1 B2] [C D]].
  destruct (snd (await_line arrivals ticks now)) as [|l rest] eqn:E.
  - rewrite (D eq_refl). lia.
  - destruct (Nat.eq_dec (fst (await_line arrivals ticks now)) now) as [H|H];
      [|lia].
    rewrite H, Nat.sub_diag in C. discriminate.
Qed.

Lemma read_line_split (arrived : list bytes) :
  match fst (read_line arrived) with Some l => [l] | None => [] end
    ++ snd (read_line arrived) = arrived.
Proof. destruct arrived; reflexivity. Qed.

Lemma read_until_loop_cases period expected arrivals fuel :
  forall deadline now q ls dq,
    until_inv expected ls dq ->
    0 < period ->
    deadline - now < fuel ->
    let st := read_until_loop period expected arrivals fuel deadline now
                q ls dq in
    dequeued st ++ pending st =
      dq ++ q ++ concat (map arrivals (seq (S now) (clock st - now))) /\
    now <= clock st /\
    (clock st = now \/ clock st < deadline + period) /\
    (until_found expected (lines st) (dequeued st) \/
     until_inv expected (lines st) (dequeued st) /\ deadline <= clock st).
Proof.
  induction fuel as [|k IH]; intros deadline now q ls dq Hinv Hp Hf; cbv zeta;
    [lia|].
  cbn [read_until_loop].
  destruct (deadline <=? now) eqn:Ed.
  - apply Nat.leb_le in Ed. cbn [lines dequeued pending clock].
    rewrite Nat.sub_diag. simpl. rewrite app_nil_r.
    repeat split; auto.
  - apply Nat.leb_gt in Ed.
    pose proof (poll_available_cases expected q ls dq Hinv) as Hq.
    destruct (poll_available expected q ls dq) as [[[ls1 dq1] q1]|[ls1 dq1]].
    + destruct Hq as [Hfound Hq]. cbn [lines dequeued pending clock].
      rewrite Nat.sub_diag. simpl. rewrite app_nil_r.
      repeat split; auto.
    + destruct Hq as [Hi ->].
      pose proof (await_line_spec arrivals period now) as [[B1 B2] [C _]].
      pose proof (await_line_progress arrivals period now Hp) as B3.
      destruct (await_line arrivals period now) as [t arrived].
      cbn [fst snd] in B1, B2, B3, C.
      pose proof (read_line_split arrived) as Ea.
      pose proof (until_body_cases expected (fst (read_line arrived))
                    ls1 (dq ++ q) Hi) as Hb.
      destruct (read_line arrived) as [res q']. cbn [fst snd] in Ea, Hb.
      destruct (until_body expected res ls1 (dq ++ q)) as [[found ls2] dq2].
      destruct found; cbv iota beta in Hb.
      * destruct Hb as [Hfound [l [-> ->]]].
        cbn [lines dequeued pending clock].
        rewrite C, <- Ea. rewrite <- !app_assoc in *.
        repeat split; auto; lia.
      * destruct Hb as [Hi2 ->].
        specialize (IH deadline t q' ls2 _ Hi2 Hp). cbv zeta in IH.
        set (st := read_until_loop period expected arrivals k deadline t q'
                     ls2 _) in *.
        destruct IH as (C' & T1 & T2 & R); [lia|].
        split; [|split; [lia|split; [right; lia|]]].
        -- rewrite C'.
           replace (clock st - now) with ((t - now) + (clock st - t)) by lia.
           rewrite seq_app, map_app, concat_app, C.
           replace (S now + (t - now)) with (S t) by lia.
           rewrite <- Ea, <- !app_assoc. reflexivity.
        -- destruct R as [R|[R1 R2]]; [left; exact R|right; auto].
Qed.

(** Fuel above [deadline - now] is never used up: the result does not depend
    on it. *)
Lemma read_until_loop_fuel period expected arrivals fuel1 :
  forall fuel2 deadline now q ls dq,
    0 < period -> deadline - now < fuel1 -> deadline - now < fuel2 ->
    read_until_loop period expected arrivals fuel1 deadline now q ls dq =
    read_until_loop period expected arrivals fuel2 deadline now q ls dq.
Proof.
  induction fuel1 as [|k1 IH]; intros fuel2 deadline now q ls dq Hp H1 H2;
    [lia|].
  destruct fuel2 as [|k2]; [lia|].
  cbn [read_until_loop].
  destruct (deadline <=? now) eqn:Ed; [reflexivity|].
  apply Nat.leb_gt in Ed.
  destruct (poll_available expected q ls dq) as [[[ls1 dq1] q1]|[ls1 dq1]];
    [reflexivity|].
  pose proof (await_line_progress arrivals period now Hp) as B.
  destruct (await_line arrivals period now) as [t arrived]. cbn [fst] in B.
  destruct (read_line arrived) as [res q'].
  destruct (until_body expected res ls1 dq1) as [[found ls2] dq2].
  destruct found; [reflexivity|]. apply IH; auto; lia.
Qed.

(** The boot scenario at a tick of 10 ms: one line is queued, the awaited one
    arrives 0.34 s into the call together with a later line, which stays
    queued. *)
Example read_until_boot :
  let st := read_until 10 (b "Ready for commands") 200 [b "AI-OS Boot v0.3"]
              (fun t => if t =? 34 then [b "Ready for commands"; b "> "]
                        else []) in
  lines st = [b "AI-OS Boot v0.3"; b "Ready for commands"] /\
  pending st = [b "> "] /\ clock st = 34.
Proof. vm_compute. repeat split. Qed.

(** Two lines that arrive together 0.03 s into a call with a time-out of
    0.1 s are both returned, the call ending 0.13 s after it began. *)
Example read_until_early_arrivals :
  let st := read_until 10 (b "zzz") 10 []
              (fun t => if t =? 3 then [b "A"; b "B"] else []) in
  lines st = [b "A"; b "B"] /\ pending st = [] /\ clock st = 13.
Proof. vm_compute. repeat split. Qed.

(** C4 as stated fails: an empty line is taken from the queue and dropped.
    The queue is the one the framer builds from a stream with a blank line. *)
Lemma read_until_drops_empty_lines :
  let stream := b "Boot" ++ [nl] ++ [x0d; nl] ++ b "Ready" ++ [nl]
                  ++ b "next" ++ [nl] in
  let q := snd (frame_lines stream []) in
  let st := read_until 10 (b "Ready") 30 q (fun _ => []) in
  q = [b "Boot"; []; b "Ready"; b "next"] /\
  dequeued st = [b "Boot"; []; b "Ready"] /\
  lines st = [b "Boot"; b "Ready"] /\
  lines st <> dequeued st /\
  length (lines st) < length (dequeued st).
Proof.
  vm_compute. repeat split; try lia. discriminate.
Qed.

(** C4, amended.  The list [read_until] returns holds every non-empty line
    taken from the queue during the call, in order (empty lines are taken and
    dropped); the lines taken are the oldest of those queued before or
    arriving during the call.  The call ends either at the first line that
    contains the pattern, which is then the last element, or, without such a
    line, once the timeout has elapsed, and in any case less than one polling
    period after the timeout. *)
Theorem read_until_returns_nonempty_dequeued
  (period : nat) (expected : bytes) (timeout : nat) (q : list bytes)
  (arrivals : nat -> list bytes) :
  0 < period ->
  let st := read_until period expected timeout q arrivals in
  lines st = filter truthy (dequeued st) /\
  dequeued st ++ pending st = q ++ concat (map arrivals (seq 1 (clock st))) /\
  clock st < timeout + period /\
  ((exists ls l, lines st = ls ++ [l] /\ contains expected l = true /\
                 forallb (nomatch expected) ls = true)
   \/ (forallb (nomatch expected) (lines st) = true /\ timeout <= clock st)).
Proof.
  intros Hp st. subst st. unfold read_until.
  destruct (read_until_loop_cases period expected arrivals (S timeout)
              timeout 0 q [] []) as (C & _ & T & R);
    [split; reflexivity|exact Hp|lia|].
  rewrite Nat.sub_0_r in C. simpl in C.
  split; [|split; [exact C|split; [lia|]]].
  - destruct R as [[R _]|[[R _] _]]; exact R.
  - destruct R as [[_ [ls [l [H1 [H2 H3]]]]]|[[_ R] E]].
    + left. exists ls, l. repeat split; auto.
    + right. split; [exact R|exact E].
Qed.

Lemma read_until_returns_nonempty_dequeued_witness :
  let arrivals := fun t => if t =? 3 then [b "A"; []; b "B"] else [] in
  let st := read_until 10 (b "zzz") 10 [] arrivals in
  lines st = filter truthy (dequeued st) /\
  dequeued st ++ pending st = [] ++ concat (map arrivals (seq 1 (clock st))) /\
  clock st < 10 + 10 /\
  ((exists ls l, lines st = ls ++ [l] /\ contains (b "zzz") l = true /\
                 forallb (nomatch (b "zzz")) ls = true)
   \/ (forallb (nomatch (b "zzz")) (lines st) = true /\ 10 <= clock st)).
Proof.
  apply (read_until_returns_nonempty_dequeued 10 (b "zzz") 10 []
           (fun t => if t =? 3 then [b "A"; []; b "B"] else [])).
  lia.
Defined.

(** ** Reasoning about methods *)

Section WpRules.
Context {St : Type}.

Lemma wp_ret {A} (a : A) (Q : outcome A -> St -> Prop) s :
  Q (Ok a) s -> wp (ret a) Q s.
Proof. exact (fun H => H). Qed.

Lemma wp_raise {A} e (Q : outcome A -> St -> Prop) s :
  Q (Raise e) s -> wp (raise e) Q s.
Proof. exact (fun H => H). Qed.

Lemma wp_gets {A} (f : St -> A) (Q : outcome A -> St -> Prop) s :
  Q (Ok (f s)) s -> wp (gets f) Q s.
Proof. exact (fun H => H). Qed.

Lemma wp_modify (f : St -> St) (Q : outcome unit -> St -> Prop) s :
  Q (Ok tt) (f s) -> wp (modify f) Q s.
Proof. exact (fun H => H). Qed.

Lemma wp_bind {A B} (m : M St A) (k : A -> M St B)
      (Q : outcome B -> St -> Prop) s :
  wp m (fun r s' => match r with
                    | Ok a => wp (k a) Q s'
                    | Raise e => Q (Raise e) s'
                    | Hang => Q Hang s'
                    end) s ->
  wp (bind m k) Q s.
Proof.
  unfold wp, bind. destruct (m s) as [[a|e|] s']; simpl; auto.
Qed.

Lemma wp_catch {A} (m : M St A) (h : exn -> M St A)
      (Q : outcome A -> St -> Prop) s :
  wp m (fun r s' => match r with
                    | Raise e => wp (h e) Q s'
                    | Ok a => Q (Ok a) s'
                    | Hang => Q Hang s'
                    end) s ->
  wp (catch m h) Q s.
Proof.
  unfold wp, catch. destruct (m s) as [[a|e|] s']; simpl; auto.
Qed.

Lemma wp_mono {A} (m : M St A) (Q Q' : outcome A -> St -> Prop) s :
  wp m Q s -> (forall r s', Q r s' -> Q' r s') -> wp m Q' s.
Proof. unfold wp. auto. Qed.

Lemma wp_hang {A} (Q : outcome A -> St -> Prop) s :
  Q Hang s -> wp (fun s => (Hang, s)) Q s.
Proof. exact (fun H => H). Qed.
End WpRules.

Ltac wp_step :=
  lazymatch goal with
  | |- wp (bind _ _) _ _ => apply wp_bind
  | |- wp (ret _) _ _ => apply wp_ret
  | |- wp (raise _) _ _ => apply wp_raise
  | |- wp (gets _) _ _ => apply wp_gets
  | |- wp (modify _) _ _ => apply wp_modify
  | |- wp (catch _ _) _ _ => apply wp_catch
  | |- wp (fun s => (Hang, s)) _ _ => apply wp_hang
  | |- wp (match ?x with _ => _ end) _ _ => destruct x eqn:?
  end.

Ltac wp_prims :=
  unfold Popen, terminate, wait_timeout, wait, reap, sleep, socket, connect,
    settimeout, close, sock_send, Thread_start, getw, setw.

Ltac wp_run := repeat (cbv beta iota; wp_step).

(** ** [stop], the connection loop and [start] of [QEMURunner] *)

Lemma remove_id_not_in x l : ~ In x (remove_id x l).
Proof.
  unfold remove_id. intros H. apply filter_In in H. destruct H as [_ H].
  rewrite Nat.eqb_refl in H. discriminate.
Qed.

Lemma stop_spec (Q : outcome unit -> Sys QEMURunner.t -> Prop) s :
  (forall r s', stop_post s r s' -> Q r s') ->
  wp QEMURunner.stop Q s.
Proof.
  intros H. unfold QEMURunner.stop, QEMURunner.set_serial,
              QEMURunner.set_process.
  wp_prims. wp_run; apply H; unfold stop_post; simpl in *;
    repeat match goal with
           | E : _ = _ |- _ => rewrite E
           end; repeat split; auto.
Qed.

Lemma connect_loop_spec n :
  forall (Q : outcome unit -> Sys QEMURunner.t -> Prop) s,
  (forall s', loop_post s s' -> Q (Ok tt) s') ->
  wp (QEMURunner.connect_loop n) Q s.
Proof.
  induction n as [|k IH]; intros Q s H; simpl QEMURunner.connect_loop.
  - wp_run. apply H. unfold loop_post. auto 10.
  - unfold QEMURunner.set_serial. wp_prims. wp_run.
    + apply H. unfold loop_post. simpl. repeat split; auto. discriminate.
    + apply IH. intros s' P. apply H. unfold loop_post in *. simpl in P.
      destruct P as (P1 & P2 & P3 & P4 & P5 & P6).
      repeat split; auto. intros E. apply P6 in E. discriminate.
Qed.

Lemma start_spec timeout (Q : outcome unit -> Sys QEMURunner.t -> Prop) s :
  (forall r s', start_post s r s' -> Q r s') ->
  wp (QEMURunner.start timeout) Q s.
Proof.
  intros H. unfold QEMURunner.start.
  apply wp_bind, wp_gets. cbv beta iota.
  apply wp_bind.
  assert (K : forall s1,
              QEMURunner.output_queue (self s1) = QEMURunner.output_queue (self s) ->
              exits_on_term (world s1) = exits_on_term (world s) ->
              (one_live s ->
               live (world s1) = [] /\ QEMURunner.process (self s1) = None) ->
              wp (pid <- Popen;;
                  QEMURunner.set_process (Some pid);;
                  sleep 5;;
                  QEMURunner.connect_loop timeout;;
                  c <- gets (fun s => QEMURunner.serial (self s));;
                  match c with
                  | Some _ =>
                      tid <- Thread_start;;
                      QEMURunner.set_reader_thread (Some tid)
                  | None =>
                      raise (RuntimeError "Failed to connect to QEMU serial port")
                  end) Q s1).
  { intros s1 E1 E2 E3.
    unfold QEMURunner.set_process, QEMURunner.set_reader_thread.
    wp_prims. wp_run.
    - apply connect_loop_spec. intros s' P.
      unfold loop_post in P. simpl in P.
      destruct P as (P1 & P2 & P3 & P4 & P5 & P6).
      assert (L : one_live s -> one_live s').
      { intros I. destruct (E3 I) as [L1 _]. unfold one_live.
        rewrite P1, P4, L1. reflexivity. }
      wp_run; apply H; unfold start_post; simpl;
        (split; [congruence|]); (split; [congruence|]);
        (split; [intros I; exact (L I)|]).
      + split; congruence.
      + split; [congruence|].
        exists (next_id (world s1)). split; [exact P1|].
        rewrite P4. apply in_or_app. right. left. reflexivity.
    - apply H. unfold start_post. repeat split; auto.
      intros I. destruct (E3 I) as [L1 L2]. unfold one_live.
      rewrite L1, L2. reflexivity. }
  destruct (QEMURunner.process (self s)) as [pid|] eqn:Ep.
  - apply stop_spec. intros r s' P. unfold stop_post in P. rewrite Ep in P.
    destruct P as (P1 & P2 & P3 & P4).
    destruct r as [[]|e|]; [|  |contradiction].
    + destruct P4 as [P4 P5]. apply K; try assumption.
      intros I. unfold one_live in I. rewrite Ep in I.
      rewrite P5, I. simpl. rewrite Nat.eqb_refl. auto.
    + destruct P4 as (-> & P4 & P5). apply H. unfold start_post.
      repeat split; auto. unfold one_live. rewrite P4, P5, Ep. auto.
  - apply wp_ret. apply K; try reflexivity.
    intros I. unfold one_live in I. rewrite Ep in I. auto.
Qed.

(** ** Unterminated trailing bytes *)

(** C9.  After any run of the reader, the bytes received are a sequence of
    newline-terminated segments followed by a tail without newline; the queue
    has gained exactly the trimmed segments and the tail is in the thread's
    local buffer.  Leaving the loop enqueues nothing more, and [stop], which
    unsets [self.serial], leaves the queue as it is: the tail is lost with the
    thread. *)
Theorem trailing_segment_never_enqueued (obs : list reader_obs) (q : list bytes) :
  let st := _reader obs (reader_init q) in
  (exists segs,
      received obs = concat (map (fun s => s ++ [nl]) segs) ++ buffer st /\
      Forall (fun s => ~ In nl s) segs /\
      ~ In nl (buffer st) /\
      queue st = q ++ map strip segs) /\
  (forall o, ends_loop o = true -> queue (reader_iter st o) = queue st) /\
  (forall more, status st = Exited -> queue (_reader more st) = queue st) /\
  (forall s : Sys QEMURunner.t,
      QEMURunner.serial (self (snd (QEMURunner.stop s))) = None /\
      QEMURunner.output_queue (self (snd (QEMURunner.stop s))) =
        QEMURunner.output_queue (self s)).
Proof.
  intros st. subst st. split; [|split; [|split]].
  - destruct (reader_run obs (reader_init q) eq_refl eq_refl) as [H _].
    simpl in H.
    destruct (frame_lines_segments (received obs) q) as [segs P].
    rewrite <- H in P. simpl in P. exists segs. exact P.
  - intros o Ho. destruct (status (_reader obs (reader_init q))) eqn:E.
    + rewrite (reader_iter_ends _ _ E Ho). reflexivity.
    + rewrite (reader_iter_exited _ _ E). reflexivity.
  - intros more E. rewrite (reader_exited _ _ E). reflexivity.
  - intros s.
    apply (stop_spec
             (fun _ s' =>
                QEMURunner.serial (self s') = None /\
                QEMURunner.output_queue (self s') =
                  QEMURunner.output_queue (self s)) s).
    intros r s' P. split; apply P.
Qed.

Lemma read_line_result (timeout : nat) (s : Sys QEMURunner.t) :
  fst (QEMURunner.read_line timeout s) =
  Ok (fst (read_line (QEMURunner.output_queue (self s)))).
Proof.
  unfold QEMURunner.read_line, bind, gets. simpl.
  destruct (QEMURunner.output_queue (self s)); reflexivity.
Qed.

(** ** The queue across the lifecycle *)

(** C10.  Neither [stop] nor [start], the restart of a started session
    included, nor [send] changes the contents of [output_queue]; hence after
    [stop] then [start], or [start] alone, [read_line] returns what it would
    have returned before: lines of the previous run are still dequeued. *)
Theorem lifecycle_keeps_queue (s : Sys QEMURunner.t) (timeout t : nat) :
  QEMURunner.output_queue (self (snd (QEMURunner.stop s))) =
    QEMURunner.output_queue (self s) /\
  QEMURunner.output_queue (self (snd (QEMURunner.start timeout s))) =
    QEMURunner.output_queue (self s) /\
  (forall data,
      QEMURunner.output_queue (self (snd (QEMURunner.send data s))) =
        QEMURunner.output_queue (self s)) /\
  fst (QEMURunner.read_line t (snd (QEMURunner.start timeout s))) =
    fst (QEMURunner.read_line t s) /\
  fst (QEMURunner.read_line t
         (snd (QEMURunner.start timeout (snd (QEMURunner.stop s))))) =
    fst (QEMURunner.read_line t s).
Proof.
  assert (Hstop : forall s0, QEMURunner.output_queue (self (snd (QEMURunner.stop s0)))
                             = QEMURunner.output_queue (self s0)).
  { intros s0.
    apply (stop_spec (fun _ s' => QEMURunner.output_queue (self s') = _) s0).
    intros r s' P. apply P. }
  assert (Hstart : forall s0, QEMURunner.output_queue
                                (self (snd (QEMURunner.start timeout s0)))
                              = QEMURunner.output_queue (self s0)).
  { intros s0.
    apply (start_spec timeout
             (fun _ s' => QEMURunner.output_queue (self s') = _) s0).
    intros r s' P. apply P. }
  split; [|split; [|split; [|split]]].
  - apply Hstop.
  - apply Hstart.
  - intros data. unfold QEMURunner.send, bind, gets. simpl.
    destruct (QEMURunner.serial (self s)) as [fd|]; [|reflexivity].
    unfold sock_send, bind, getw, setw, gets, modify, raise. simpl.
    destruct (mem_id fd (connected (world s))); reflexivity.
  - rewrite !read_line_result, Hstart. reflexivity.
  - rewrite !read_line_result, Hstart, Hstop. reflexivity.
Qed.

(** ** Operations outside the running state *)

(** C2 as stated fails: on a session never started, [read_line] returns
    [None] after its timeout, and on a stopped session holding a line it
    returns the line; neither fails. *)
Lemma read_line_outside_running_returns :
  fst (QEMURunner.read_line 20 (mkSys QEMURunner.init w_idle)) = Ok None /\
  (let stopped :=
     snd (QEMURunner.stop
            (mkSys (QEMURunner.mk None None [b "PONG"] None) w_idle)) in
   fst (QEMURunner.read_line 20 stopped) = Ok (Some (b "PONG"))) /\
  ~ (exists e, fst (QEMURunner.read_line 20 (mkSys QEMURunner.init w_idle))
               = Raise e) /\
  fst (QEMUManager.send_serial (PyStr "p") (mkSys QEMUManager.init w_idle))
    = Ok false.
Proof.
  repeat split; try reflexivity.
  intros [e H]. vm_compute in H. discriminate.
Qed.

(** C2, amended.  On a session never started or already stopped,
    [QEMURunner.send] fails, with the [AttributeError] of calling [send] on
    the absent connection, leaving everything as it was; [read_line] does not
    fail: it returns the oldest queued line, or [None] when the queue is
    empty, within its timeout; [QEMUManager.send_serial] returns [False]. *)
Theorem send_fails_read_line_returns_when_not_running
  (s : Sys QEMURunner.t) (data : pydata) (t : nat) :
  (self s = QEMURunner.init \/ exists s0, QEMURunner.stop s0 = (Ok tt, s)) ->
  QEMURunner.send data s = (Raise AttributeError, s) /\
  fst (QEMURunner.read_line t s) =
    Ok (fst (read_line (QEMURunner.output_queue (self s)))) /\
  now (world (snd (QEMURunner.read_line t s))) <= now (world s) + t /\
  (forall m : Sys QEMUManager.t,
      (self m = QEMUManager.init \/
       exists m0, QEMUManager.stop_qemu m0 = (Ok tt, m)) ->
      QEMUManager.send_serial data m = (Ok false, m)).
Proof.
  intros Hs.
  assert (E : QEMURunner.serial (self s) = None).
  { destruct Hs as [-> | [s0 H0]]; [reflexivity|].
    pose proof (stop_spec (fun r s' => stop_post s0 r s') s0 (fun r s' P => P))
      as P.
    unfold wp in P. rewrite H0 in P. apply P. }
  split; [|split; [|split]].
  - unfold QEMURunner.send, bind, gets. simpl. rewrite E. reflexivity.
  - apply read_line_result.
  - unfold QEMURunner.read_line, QEMURunner.set_output_queue, sleep, setw,
      bind, gets, modify, ret. simpl.
    destruct (QEMURunner.output_queue (self s)); simpl; lia.
  - intros m Hm.
    assert (Em : QEMUManager.serial (self m) = None).
    { destruct Hm as [-> | [m0 H0]]; [reflexivity|].
      revert H0. unfold QEMUManager.stop_qemu, QEMUManager.set_process,
                   QEMUManager.set_serial.
      wp_prims. unfold bind, gets, modify, ret. simpl.
      destruct (QEMUManager.process (self m0)) as [pid|]; simpl.
      - destruct (exits_on_term (world m0) pid); simpl; [|discriminate].
        destruct (QEMUManager.serial (self m0)); simpl;
          intros [= <-]; reflexivity.
      - destruct (QEMUManager.serial (self m0)) eqn:E0; simpl;
          intros [= <-]; [reflexivity|exact E0]. }
    unfold QEMUManager.send_serial, bind, gets. simpl. rewrite Em. reflexivity.
Qed.

Lemma send_fails_read_line_returns_when_not_running_witness :
  (self (mkSys QEMURunner.init w_idle) = QEMURunner.init \/
   exists s0, QEMURunner.stop s0 = (Ok tt, mkSys QEMURunner.init w_idle)) /\
  QEMURunner.send (PyStr "p") (mkSys QEMURunner.init w_idle) =
    (Raise AttributeError, mkSys QEMURunner.init w_idle) /\
  fst (QEMURunner.read_line 20 (mkSys QEMURunner.init w_idle)) =
    Ok (fst (read_line (QEMURunner.output_queue
                          (self (mkSys QEMURunner.init w_idle))))).
Proof.
  assert (H : self (mkSys QEMURunner.init w_idle) = QEMURunner.init \/
              exists s0, QEMURunner.stop s0 = (Ok tt, mkSys QEMURunner.init w_idle))
    by (left; reflexivity).
  split; [exact H|].
  destruct (send_fails_read_line_returns_when_not_running
              (mkSys QEMURunner.init w_idle) (PyStr "p") 20 H) as [H1 [H2 _]].
  split; [exact H1|exact H2].
Defined.

(** ** Failure of [start] *)

Lemma connect_loop_records_socket (n : nat) :
  forall (Q : outcome unit -> Sys QEMURunner.t -> Prop) s,
    (forall s', QEMURunner.serial (self s') <> None -> Q (Ok tt) s') ->
    wp (QEMURunner.connect_loop (S n)) Q s.
Proof.
  intros Q s H. simpl QEMURunner.connect_loop.
  unfold QEMURunner.set_serial. wp_prims. wp_run.
  - apply H. simpl. discriminate.
  - apply connect_loop_spec. intros s' P. apply H. intros E.
    destruct P as (_ & _ & _ & _ & _ & P). apply P in E. simpl in E.
    discriminate.
Qed.

(** Once the loop has made an attempt, [start] never raises its connection
    error, whatever became of the attempts. *)
Lemma start_never_reports_failed_attempts
      (timeout : nat) (s : Sys QEMURunner.t) (msg : string) :
  fst (QEMURunner.start (S timeout) s) <> Raise (RuntimeError msg).
Proof.
  change (wp (QEMURunner.start (S timeout))
            (fun r _ => r <> Raise (RuntimeError msg)) s).
  unfold QEMURunner.start.
  apply wp_bind, wp_gets. cbv beta iota. apply wp_bind.
  assert (K : forall s1,
              wp (pid <- Popen;;
                  QEMURunner.set_process (Some pid);;
                  sleep 5;;
                  QEMURunner.connect_loop (S timeout);;
                  c <- gets (fun s => QEMURunner.serial (self s));;
                  match c with
                  | Some _ =>
                      tid <- Thread_start;;
                      QEMURunner.set_reader_thread (Some tid)
                  | None =>
                      raise (RuntimeError "Failed to connect to QEMU serial port")
                  end) (fun r _ => r <> Raise (RuntimeError msg)) s1).
  { intros s1. unfold QEMURunner.set_process, QEMURunner.set_reader_thread.
    wp_prims. wp_run; try discriminate.
    apply connect_loop_records_socket. intros s' Hs.
    wp_run; try discriminate. congruence. }
  destruct (QEMURunner.process (self s)).
  - apply stop_spec. intros r s' P. unfold stop_post in P.
    destruct P as (_ & _ & _ & P).
    destruct r as [[]|e|]; [apply K| |contradiction].
    destruct P as (-> & _). discriminate.
  - apply wp_ret. apply K.
Qed.

(** C1: the code misses the failure.  When no connection attempt succeeds
    within the timeout (5 s here, nothing listening), [start] returns normally
    instead of raising its connection error: the last unconnected socket is
    recorded, the reader thread is started, and the subprocess and the sockets
    are left as they are. *)
Lemma start_without_listener_returns_normally :
  let s' := snd (QEMURunner.start 50 (mkSys QEMURunner.init w_idle)) in
  fst (QEMURunner.start 50 (mkSys QEMURunner.init w_idle)) = Ok tt /\
  now (world s') = 55 /\
  connected (world s') = [] /\
  QEMURunner.process (self s') = Some 0 /\
  live (world s') = [0] /\
  QEMURunner.serial (self s') = Some 50 /\
  In 50 (opened (world s')).
Proof.
  vm_compute. repeat split; auto 60.
Qed.

(** ** One subprocess per session *)

Lemma remove_id_single pid : remove_id pid [pid] = [].
Proof. unfold remove_id. simpl. now rewrite Nat.eqb_refl. Qed.

Lemma do_call_one_live (s : Sys QEMURunner.t) (c : call) :
  one_live s -> one_live (do_call s c).
Proof.
  intros I. destruct c as [timeout| |data|timeout]; simpl.
  - apply (start_spec timeout (fun _ s' => one_live s') s).
    intros r s' P. apply P. exact I.
  - apply (stop_spec (fun _ s' => one_live s') s).
    intros r s' P. unfold stop_post in P. unfold one_live in *.
    destruct P as (_ & _ & _ & P).
    destruct r as [[]|e|]; [| |contradiction].
    + destruct P as [-> P].
      destruct (QEMURunner.process (self s)) as [pid|].
      * rewrite P, I. apply remove_id_single.
      * rewrite P, I. reflexivity.
    + destruct P as (_ & -> & ->). exact I.
  - unfold QEMURunner.send, bind, gets, one_live in *. simpl.
    destruct (QEMURunner.serial (self s)) as [fd|]; [|exact I].
    unfold sock_send, bind, getw, setw, gets, modify, raise. simpl.
    destruct (mem_id fd (connected (world s))); exact I.
  - unfold QEMURunner.read_line, QEMURunner.set_output_queue, sleep, setw,
      bind, gets, modify, ret, one_live in *. simpl.
    destruct (QEMURunner.output_queue (self s)); exact I.
Qed.

(** X7.  Whatever calls are made on a fresh session, at most one emulator
    subprocess is alive after each of them. *)
Lemma at_most_one_live (calls : list call) (w : World) :
  live w = [] ->
  length (live (world (fold_left do_call calls (mkSys QEMURunner.init w)))) <= 1.
Proof.
  intros Hw.
  assert (I : one_live (fold_left do_call calls (mkSys QEMURunner.init w))).
  { assert (I0 : one_live (mkSys QEMURunner.init w)) by exact Hw.
    revert I0. generalize (mkSys QEMURunner.init w).
    induction calls as [|c cs IH]; intros s I0; [exact I0|].
    simpl. apply IH. apply do_call_one_live. exact I0. }
  unfold one_live in I. rewrite I.
  destruct (QEMURunner.process _); simpl; lia.
Qed.

(** The same for the manager. *)
Lemma stop_qemu_one_live (Q : outcome unit -> Sys QEMUManager.t -> Prop) m :
  manager_one_live m ->
  (forall r m',
      manager_one_live m' ->
      (r = Ok tt -> QEMUManager.process (self m') = None) ->
      Q r m') ->
  wp QEMUManager.stop_qemu Q m.
Proof.
  intros I H. unfold manager_one_live in I.
  unfold QEMUManager.stop_qemu, QEMUManager.set_process, QEMUManager.set_serial.
  wp_prims. wp_run; apply H; unfold manager_one_live; simpl in *;
    repeat match goal with
           | E : QEMUManager.process _ = _ |- _ => rewrite E in *
           end;
    try rewrite I; try rewrite remove_id_single; auto; discriminate.
Qed.

Lemma start_qemu_one_live (m : Sys QEMUManager.t) :
  manager_one_live m -> manager_one_live (snd (QEMUManager.start_qemu m)).
Proof.
  intros I.
  change (wp QEMUManager.start_qemu (fun _ m' => manager_one_live m') m).
  unfold QEMUManager.start_qemu.
  apply wp_bind, wp_gets. cbv beta iota. apply wp_bind.
  assert (K : forall m1,
              manager_one_live m1 -> QEMUManager.process (self m1) = None ->
              wp (pid <- Popen;;
                  QEMUManager.set_process (Some pid);;
                  sleep 10;;
                  catch
                    (fd <- socket;;
                     QEMUManager.set_serial (Some fd);;
                     connect fd;;
                     settimeout fd;;
                     ret (true, "QEMU started successfully"%string))
                    (fun _ => ret (false, "Failed to connect to serial port"%string)))
                 (fun _ m' => manager_one_live m') m1).
  { intros m1 I1 E1. unfold manager_one_live in *. rewrite E1 in I1.
    unfold QEMUManager.set_process, QEMUManager.set_serial.
    wp_prims. wp_run; simpl; rewrite ?I1, ?E1; reflexivity. }
  destruct (QEMUManager.process (self m)) as [pid|] eqn:Ep.
  - apply stop_qemu_one_live; [exact I|].
    intros r m' I' E'. destruct r as [[]|e|]; try exact I'.
    apply K; auto.
  - apply wp_ret. apply K; assumption.
Qed.

(** ** Order of teardown *)

(** X8.  On a session with a socket and a process recorded, [stop] closes
    the socket, then sends SIGTERM, then waits, in this order and nothing
    else; the wait is logged only when the process exits. *)
Lemma runner_stop_log (s : Sys QEMURunner.t) (fd pid : nat) :
  QEMURunner.serial (self s) = Some fd ->
  QEMURunner.process (self s) = Some pid ->
  log (world (snd (QEMURunner.stop s))) =
  log (world s) ++ [EvClose fd; EvTerminate pid] ++
  (if exits_on_term (world s) pid then [EvWait pid] else []).
Proof.
  intros Hc Hp.
  unfold QEMURunner.stop, QEMURunner.set_serial, QEMURunner.set_process.
  wp_prims. unfold bind, gets, modify, ret, raise, emit. simpl.
  rewrite Hc. simpl. rewrite Hp. simpl.
  destruct (exits_on_term (world s) pid); simpl;
    rewrite <- !app_assoc; reflexivity.
Qed.

Lemma manager_stop_log (m : Sys QEMUManager.t) (fd pid : nat) :
  QEMUManager.serial (self m) = Some fd ->
  QEMUManager.process (self m) = Some pid ->
  log (world (snd (QEMUManager.stop_qemu m))) =
  log (world m) ++ [EvTerminate pid] ++
  (if exits_on_term (world m) pid then [EvWait pid; EvClose fd] else []).
Proof.
  intros Hc Hp.
  unfold QEMUManager.stop_qemu, QEMUManager.set_serial, QEMUManager.set_process.
  wp_prims. unfold bind, gets, modify, ret, raise, emit. simpl.
  rewrite Hp. simpl.
  destruct (exits_on_term (world m) pid); simpl.
  - rewrite Hc. simpl. rewrite <- !app_assoc. reflexivity.
  - reflexivity.
Qed.

(** C7: the order fails in [QEMUManager.stop_qemu].  On a started manager
    it sends SIGTERM and waits for the subprocess before it closes the
    socket, whereas [QEMURunner.stop] on the same environment closes the
    socket first. *)
Theorem stop_qemu_terminates_before_closing :
  let m := snd (QEMUManager.start_qemu (mkSys QEMUManager.init w_ready)) in
  let r := snd (QEMURunner.start 50 (mkSys QEMURunner.init w_ready)) in
  self m = QEMUManager.mk (Some 0) (Some 1) None /\
  log (world (snd (QEMUManager.stop_qemu m))) =
    log (world m) ++ [EvTerminate 0; EvWait 0; EvClose 1] /\
  closed_before_terminated 1 0 (log (world (snd (QEMUManager.stop_qemu m))))
    = false /\
  QEMURunner.process (self r) = Some 0 /\
  QEMURunner.serial (self r) = Some 1 /\
  log (world (snd (QEMURunner.stop r))) =
    log (world r) ++ [EvClose 1; EvTerminate 0; EvWait 0] /\
  closed_before_terminated 1 0 (log (world (snd (QEMURunner.stop r)))) = true.
Proof.
  vm_compute. repeat split.
Qed.

(** * Further properties of the harness *)

(** ** Shape and number of the enqueued lines *)

Lemma strip_infix (line : bytes) (c : byte) : In c (strip line) -> In c line.
Proof.
  intros H. destruct (strip_decomp line) as [pre [post [E _]]].
  rewrite E. apply in_or_app. right. apply in_or_app. left. exact H.
Qed.

Lemma strip_clean (s : bytes) : ~ In nl s -> clean_line (strip s).
Proof.
  intros Hn. unfold clean_line. split; [|apply strip_ends].
  intros H. apply Hn. apply strip_infix. exact H.
Qed.

(** X1.  Every line the reader enqueues is free of newline bytes and neither
    begins nor ends with ASCII whitespace; in particular no line keeps the
    carriage return of a CRLF line ending. *)
Theorem enqueued_lines_are_clean (obs : list reader_obs) :
  Forall clean_line (queue (_reader obs (reader_init []))).
Proof.
  destruct (reader_run obs (reader_init []) eq_refl eq_refl) as [H _].
  simpl in H.
  destruct (frame_lines_segments (received obs) []) as [segs (_ & Hs & _ & Hq)].
  rewrite <- H in Hq. simpl in Hq. rewrite Hq.
  clear - Hs. induction Hs as [|s segs Hn _ IH]; simpl; constructor.
  - apply strip_clean. exact Hn.
  - exact IH.
Qed.

Lemma filter_nl_none (l : bytes) : ~ In nl l -> filter is_nl l = [].
Proof.
  induction l as [|c l IH]; simpl; [reflexivity|].
  intros H. destruct (is_nl c) eqn:E.
  - apply is_nl_true in E. subst c. exfalso. apply H. now left.
  - apply IH. intros Hin. apply H. now right.
Qed.

Lemma count_nl_segments (segs : list bytes) (tail : bytes) :
  Forall (fun s => ~ In nl s) segs -> ~ In nl tail ->
  count_nl (concat (map (fun s => s ++ [nl]) segs) ++ tail) = length segs.
Proof.
  intros Hs Ht. unfold count_nl. rewrite filter_app, (filter_nl_none _ Ht).
  rewrite app_nil_r. induction Hs as [|s segs Hn _ IH]; simpl; [reflexivity|].
  rewrite !filter_app, (filter_nl_none _ Hn), length_app, IH. reflexivity.
Qed.

(** X2.  The reader enqueues exactly one line per newline byte received:
    after any run, the queue has grown by the number of newline bytes among
    the bytes received. *)
Theorem one_line_per_newline (obs : list reader_obs) (q : list bytes) :
  length (queue (_reader obs (reader_init q))) =
  length q + count_nl (received obs).
Proof.
  destruct (reader_run obs (reader_init q) eq_refl eq_refl) as [H _].
  simpl in H.
  destruct (frame_lines_segments (received obs) q) as [segs (Hr & Hs & Ht & Hq)].
  rewrite <- H in Hr, Ht, Hq. simpl in Hr, Ht, Hq.
  rewrite Hq, length_app, length_map.
  rewrite Hr, (count_nl_segments _ _ Hs Ht). reflexivity.
Qed.

(** ** Round trip through the framer *)

Lemma split_nl_first (l rest : bytes) :
  ~ In nl l -> split_nl (l ++ nl :: rest) = Some (l, rest).
Proof.
  induction l as [|c l IH]; intros Hn; simpl.
  - reflexivity.
  - destruct (is_nl c) eqn:E.
    + apply is_nl_true in E. subst c. exfalso. apply Hn. now left.
    + rewrite IH; [reflexivity|]. intros Hin. apply Hn. now right.
Qed.

Lemma rstrip_snoc_space (l : bytes) (c : byte) :
  isspace c = true -> rstrip (l ++ [c]) = rstrip l.
Proof.
  intros Hc. unfold rstrip. rewrite rev_app_distr. simpl. rewrite Hc.
  reflexivity.
Qed.

Lemma strip_fixed_cr (l : bytes) : strip l = l -> strip (l ++ [x0d]) = l.
Proof.
  intros H. destruct l as [|c r].
  - reflexivity.
  - assert (Hc : isspace c = false).
    { destruct (strip_ends (c :: r)) as [Hf _]. apply (Hf c r). exact H. }
    assert (L : lstrip ((c :: r) ++ [x0d]) = (c :: r) ++ [x0d])
      by (simpl; rewrite Hc; reflexivity).
    unfold strip. rewrite L, (rstrip_snoc_space (c :: r) x0d eq_refl).
    unfold strip in H. simpl in H. rewrite Hc in H. exact H.
Qed.

Lemma frame_lines_wire (crlf : bool) (ls : list bytes) :
  Forall (fun l => ~ In nl l /\ strip l = l) ls ->
  forall q, frame_lines (wire_lines crlf ls) q = ([], q ++ ls).
Proof.
  induction 1 as [|l ls [Hn Hs] _ IH]; intros q; simpl.
  - rewrite frame_lines_None by reflexivity. now rewrite app_nil_r.
  - destruct crlf; simpl.
    + rewrite <- app_assoc. simpl.
      change (l ++ x0d :: nl :: wire_lines true ls)
        with (l ++ [x0d] ++ nl :: wire_lines true ls).
      rewrite app_assoc.
      rewrite (frame_lines_Some _ q (l ++ [x0d]) (wire_lines true ls)).
      * rewrite (strip_fixed_cr l Hs), IH, <- app_assoc. reflexivity.
      * apply split_nl_first. intros Hin. apply in_app_or in Hin.
        destruct Hin as [Hin|[E|[]]]; [exact (Hn Hin)|discriminate].
    + rewrite <- app_assoc. simpl.
      rewrite (frame_lines_Some _ q l (wire_lines false ls)).
      * rewrite Hs, IH, <- app_assoc. reflexivity.
      * apply split_nl_first. exact Hn.
Qed.

(** X3.  Framing inverts line-by-line writing: when lines that hold no
    newline and no leading or trailing whitespace are sent each followed by
    LF, or each by CRLF, then however the bytes are cut into [recv] chunks and
    timeouts, the reader enqueues exactly those lines, in order, and its
    buffer ends empty. *)
Theorem framing_round_trip
  (crlf : bool) (ls : list bytes) (rs : list (option bytes)) :
  Forall (fun l => ~ In nl l /\ strip l = l) ls ->
  stream_of rs = wire_lines crlf ls ->
  _reader (map recv_obs rs) (reader_init []) = mkReader [] ls Looping.
Proof.
  intros Hc Hw.
  destruct (reader_run (map recv_obs rs) (reader_init []) eq_refl eq_refl)
    as [H1 H2].
  rewrite received_stream, Hw in H1. simpl in H1.
  rewrite (frame_lines_wire crlf ls Hc []) in H1.
  rewrite ends_loop_stream in H2.
  destruct (_reader (map recv_obs rs) (reader_init [])) as [b0 q0 s0].
  simpl in *. congruence.
Qed.

Lemma framing_round_trip_witness :
  _reader (map recv_obs [Some (b "PONG" ++ [x0d]); None;
                         Some ([nl] ++ b "AI-OS"); Some (b " v0.3" ++ [x0d; nl])])
    (reader_init []) =
  mkReader [] [b "PONG"; b "AI-OS v0.3"] Looping.
Proof.
  apply (framing_round_trip true [b "PONG"; b "AI-OS v0.3"]).
  - repeat constructor; try reflexivity;
      intros H; vm_compute in H; intuition discriminate.
  - reflexivity.
Defined.

(** ** More on [read_until] *)

Lemma until_body_extends expected res ls dq :
  let '(_, ls', dq') := until_body expected res ls dq in
  (exists e1, ls' = ls ++ e1) /\ (exists e2, dq' = dq ++ e2).
Proof.
  unfold until_body. destruct res as [l|].
  - destruct (truthy l); split; eauto. exists []. now rewrite app_nil_r.
  - split; exists []; now rewrite app_nil_r.
Qed.

Lemma poll_available_extends expected q : forall ls dq,
  match poll_available expected q ls dq with
  | inl (ls', dq', _) | inr (ls', dq') =>
      (exists e1, ls' = ls ++ e1) /\ (exists e2, dq' = dq ++ e2)
  end.
Proof.
  induction q as [|l q IH]; intros ls dq.
  - simpl. split; exists []; now rewrite app_nil_r.
  - rewrite poll_available_cons.
    pose proof (until_body_extends expected (Some l) ls dq) as Hb.
    destruct (until_body expected (Some l) ls dq) as [[found ls1] dq1].
    destruct Hb as [[e1 ->] [e2 ->]]. destruct found.
    + split; eauto.
    + specialize (IH (ls ++ e1) (dq ++ e2)).
      destruct (poll_available expected q (ls ++ e1) (dq ++ e2))
        as [[[a c] d]|[a c]];
        destruct IH as [[f1 ->] [f2 ->]]; rewrite <- !app_assoc; split; eauto.
Qed.

Lemma read_until_loop_extends period expected arrivals fuel :
  forall deadline now q ls dq,
    let st := read_until_loop period expected arrivals fuel deadline now
                q ls dq in
    (exists e1, lines st = ls ++ e1) /\ (exists e2, dequeued st = dq ++ e2).
Proof.
  induction fuel as [|k IH]; intros deadline now q ls dq; cbv zeta.
  - simpl. split; exists []; now rewrite app_nil_r.
  - cbn [read_until_loop]. destruct (deadline <=? now).
    { simpl. split; exists []; now rewrite app_nil_r. }
    pose proof (poll_available_extends expected q ls dq) as Hq.
    destruct (poll_available expected q ls dq) as [[[ls1 dq1] q1]|[ls1 dq1]].
    + exact Hq.
    + destruct Hq as [[e1 ->] [e2 ->]].
      destruct (await_line arrivals period now) as [t arrived].
      destruct (read_line arrived) as [res q'].
      pose proof (until_body_extends expected res (ls ++ e1) (dq ++ e2)) as Hb.
      destruct (until_body expected res (ls ++ e1) (dq ++ e2))
        as [[found ls2] dq2].
      destruct Hb as [[f1 ->] [f2 ->]]. destruct found.
      * cbn [lines dequeued]. rewrite <- !app_assoc. split; eauto.
      * specialize (IH deadline t q' ((ls ++ e1) ++ f1) ((dq ++ e2) ++ f2)).
        cbv zeta in IH. destruct IH as [[g1 ->] [g2 ->]].
        rewrite <- !app_assoc. split; eauto.
Qed.

Lemma read_until_loop_monotone period expected arrivals fuel1 :
  forall fuel2 d1 d2 now q ls dq,
    0 < period -> d1 <= d2 -> d1 - now < fuel1 -> d2 - now < fuel2 ->
    let short := read_until_loop period expected arrivals fuel1 d1 now
                   q ls dq in
    let long := read_until_loop period expected arrivals fuel2 d2 now
                  q ls dq in
    (exists e1, lines long = lines short ++ e1) /\
    (exists e2, dequeued long = dequeued short ++ e2).
Proof.
  induction fuel1 as [|k1 IH]; intros fuel2 d1 d2 now q ls dq Hp Hd H1 H2;
    cbv zeta; [lia|].
  destruct fuel2 as [|k2]; [lia|].
  cbn [read_until_loop].
  destruct (d1 <=? now) eqn:E1.
  - cbn [lines dequeued].
    apply (read_until_loop_extends period expected arrivals (S k2)).
  - apply Nat.leb_gt in E1.
    assert (E2 : (d2 <=? now) = false) by (apply Nat.leb_gt; lia).
    cbn [read_until_loop]. rewrite E2.
    destruct (poll_available expected q ls dq) as [[[ls1 dq1] q1]|[ls1 dq1]].
    + split; exists []; now rewrite app_nil_r.
    + pose proof (await_line_progress arrivals period now Hp) as B.
      destruct (await_line arrivals period now) as [t arrived].
      cbn [fst] in B.
      destruct (read_line arrived) as [res q'].
      destruct (until_body expected res ls1 dq1) as [[found ls2] dq2].
      destruct found.
      * split; exists []; now rewrite app_nil_r.
      * apply IH; auto; lia.
Qed.

(** X4.  A longer timeout only adds to what [read_until] returns: on the
    same queue and the same arrivals, the list returned with timeout [T] is a
    prefix of the list returned with any timeout [T + extra], and so are the
    lines taken from the queue. *)
Theorem read_until_monotone
  (period : nat) (expected : bytes) (T extra : nat) (q : list bytes)
  (arrivals : nat -> list bytes) :
  0 < period ->
  (exists e1, lines (read_until period expected (T + extra) q arrivals) =
              lines (read_until period expected T q arrivals) ++ e1) /\
  (exists e2, dequeued (read_until period expected (T + extra) q arrivals) =
              dequeued (read_until period expected T q arrivals) ++ e2).
Proof.
  intros Hp. unfold read_until.
  apply read_until_loop_monotone; auto; lia.
Qed.

Lemma read_until_monotone_witness :
  let arrivals := fun t => if t =? 3 then [b "A"; b "B"]
                           else if t =? 17 then [b "C"] else [] in
  (exists e1, lines (read_until 10 (b "zzz") (10 + 10) [] arrivals) =
              lines (read_until 10 (b "zzz") 10 [] arrivals) ++ e1) /\
  (exists e2, dequeued (read_until 10 (b "zzz") (10 + 10) [] arrivals) =
              dequeued (read_until 10 (b "zzz") 10 [] arrivals) ++ e2).
Proof.
  apply (read_until_monotone 10 (b "zzz") 10 10 []
           (fun t => if t =? 3 then [b "A"; b "B"]
                     else if t =? 17 then [b "C"] else [])).
  lia.
Defined.




(** An empty line and a line that arrive together 0.03 s into the call: the
    empty line is skipped and the call returns the other at once. *)
Example read_until_empty_pattern_skips_blank :
  let st := read_until 10 [] 10 []
              (fun t => if t =? 3 then [[]; b "x"] else []) in
  lines st = [b "x"] /\ dequeued st = [[]; b "x"] /\ clock st = 3.
Proof. vm_compute. repeat split. Qed.


Lemma poll_available_finds expected (l : bytes) (q : list bytes) :
  In l q -> truthy l = true -> contains expected l = true ->
  forall ls dq,
    exists ls' m rest pre,
      poll_available expected q ls dq = inl (ls' ++ [m], dq ++ pre ++ [m], rest) /\
      contains expected m = true /\ q = pre ++ m :: rest.
Proof.
  intros Hin Ht Hc. induction q as [|x q IH]; [destruct Hin|].
  intros ls dq. rewrite poll_available_cons. unfold until_body.
  destruct (truthy x) eqn:Tx.
  - destruct (contains expected x) eqn:Cx.
    + exists ls, x, q, []. repeat split; auto.
    + destruct Hin as [->|Hin]; [congruence|].
      destruct (IH Hin (ls ++ [x]) (dq ++ [x])) as [ls' [m [rest [pre [E [C Q]]]]]].
      exists ls', m, rest, (x :: pre). rewrite E, Q.
      rewrite <- !app_assoc. repeat split; auto.
  - destruct Hin as [->|Hin]; [congruence|].
    destruct (IH Hin ls (dq ++ [x])) as [ls' [m [rest [pre [E [C Q]]]]]].
    exists ls', m, rest, (x :: pre). rewrite E, Q.
    rewrite <- !app_assoc. repeat split; auto.
Qed.

(** X6.  When a non-empty line containing the pattern is already queued and
    the timeout is positive, [read_until] returns without waiting: no polling
    period elapses, the last line returned contains the pattern, and the lines
    queued behind it stay in the queue. *)
Theorem read_until_immediate
  (period : nat) (expected l : bytes) (timeout : nat) (q : list bytes)
  (arrivals : nat -> list bytes) :
  0 < timeout -> In l q -> truthy l = true -> contains expected l = true ->
  let st := read_until period expected timeout q arrivals in
  clock st = 0 /\
  exists ls m, lines st = ls ++ [m] /\ contains expected m = true /\
               q = dequeued st ++ pending st /\
               exists pre, dequeued st = pre ++ [m].
Proof.
  intros Hpos Hin Ht Hc. cbv zeta. unfold read_until.
  destruct timeout as [|k]; [lia|]. cbn [read_until_loop Nat.leb].
  destruct (poll_available_finds expected l q Hin Ht Hc [] [])
    as [ls' [m [rest [pre [E [C Q]]]]]].
  rewrite E. cbn [lines dequeued pending clock].
  split; [reflexivity|]. exists ls', m. repeat split; auto.
  - simpl. rewrite <- app_assoc. exact Q.
  - exists pre. reflexivity.
Qed.

Lemma read_until_immediate_witness :
  let st := read_until 10 (b "Ready") 20
              [b "Boot"; b "Ready for commands"; b "> "] (fun _ => []) in
  clock st = 0 /\
  exists ls m, lines st = ls ++ [m] /\ contains (b "Ready") m = true /\
               [b "Boot"; b "Ready for commands"; b "> "]
                 = dequeued st ++ pending st /\
               exists pre, dequeued st = pre ++ [m].
Proof.
  apply (read_until_immediate 10 (b "Ready") (b "Ready for commands") 20
           [b "Boot"; b "Ready for commands"; b "> "] (fun _ => [])).
  - lia.
  - right. left. reflexivity.
  - reflexivity.
  - reflexivity.
Defined.

(** ** More on the lifecycle of [QEMURunner] *)

Lemma at_most_one_live_witness :
  length (live (world (fold_left do_call
                         [CallStart 50; CallSend (PyStr "p"); CallStart 50;
                          CallReadLine 10]
                         (mkSys QEMURunner.init w_ready)))) <= 1.
Proof.
  apply (at_most_one_live
           [CallStart 50; CallSend (PyStr "p"); CallStart 50; CallReadLine 10]
           w_ready).
  reflexivity.
Defined.

Lemma runner_stop_log_witness :
  log (world (snd (QEMURunner.stop
                     (mkSys (QEMURunner.mk (Some 0) (Some 1) [] (Some 2))
                            w_ready)))) =
  log w_ready ++ [EvClose 1; EvTerminate 0] ++
  (if exits_on_term w_ready 0 then [EvWait 0] else []).
Proof.
  apply (runner_stop_log
           (mkSys (QEMURunner.mk (Some 0) (Some 1) [] (Some 2)) w_ready) 1 0);
    reflexivity.
Defined.

Lemma stop_returns (s : Sys QEMURunner.t) :
  (forall pid, QEMURunner.process (self s) = Some pid ->
               exits_on_term (world s) pid = true) ->
  fst (QEMURunner.stop s) = Ok tt /\
  (forall fd, QEMURunner.serial (self s) = Some fd ->
              ~ In fd (opened (world (snd (QEMURunner.stop s))))).
Proof.
  intros Hx.
  unfold QEMURunner.stop, QEMURunner.set_serial, QEMURunner.set_process.
  wp_prims. unfold bind, gets, modify, ret. simpl.
  destruct (QEMURunner.serial (self s)) as [fd|] eqn:Ec; simpl;
    destruct (QEMURunner.process (self s)) as [pid|] eqn:Ep; simpl;
    try rewrite (Hx pid eq_refl); simpl; split; auto;
    try discriminate; intros fd' [= <-]; apply remove_id_not_in.
Qed.

Lemma do_call_exits (s : Sys QEMURunner.t) (c : call) :
  exits_on_term (world (do_call s c)) = exits_on_term (world s).
Proof.
  destruct c as [timeout| |data|timeout]; simpl.
  - apply (start_spec timeout (fun _ s' => exits_on_term (world s') = _) s).
    intros r s' P. apply P.
  - apply (stop_spec (fun _ s' => exits_on_term (world s') = _) s).
    intros r s' P. apply P.
  - unfold QEMURunner.send, bind, gets. simpl.
    destruct (QEMURunner.serial (self s)) as [fd|]; [|reflexivity].
    unfold sock_send, bind, getw, setw, gets, modify, raise. simpl.
    destruct (mem_id fd (connected (world s))); reflexivity.
  - unfold QEMURunner.read_line, QEMURunner.set_output_queue, sleep, setw,
      bind, gets, modify, ret. simpl.
    destruct (QEMURunner.output_queue (self s)); reflexivity.
Qed.

(** X9.  The fixture's teardown releases the emulator: whatever calls a test
    makes on the runner, if subprocesses exit when sent SIGTERM then the final
    [stop()] returns normally and leaves no subprocess alive, no process and
    no socket recorded, and the socket that was recorded closed. *)
Theorem fixture_teardown_releases (calls : list call) (w : World) :
  live w = [] ->
  (forall pid, exits_on_term w pid = true) ->
  let s := fold_left do_call calls (mkSys QEMURunner.init w) in
  fst (QEMURunner.stop s) = Ok tt /\
  live (world (snd (QEMURunner.stop s))) = [] /\
  QEMURunner.process (self (snd (QEMURunner.stop s))) = None /\
  QEMURunner.serial (self (snd (QEMURunner.stop s))) = None /\
  (forall fd, QEMURunner.serial (self s) = Some fd ->
              ~ In fd (opened (world (snd (QEMURunner.stop s))))).
Proof.
  intros Hw Hx s.
  assert (I : one_live s /\ exits_on_term (world s) = exits_on_term w).
  { subst s.
    assert (I0 : one_live (mkSys QEMURunner.init w) /\
                 exits_on_term (world (mkSys QEMURunner.init w))
                 = exits_on_term w) by (split; [exact Hw|reflexivity]).
    revert I0. generalize (mkSys QEMURunner.init w).
    induction calls as [|c cs IH]; intros s0 I0; [exact I0|].
    simpl. apply IH. destruct I0 as [I1 I2]. split.
    - apply do_call_one_live. exact I1.
    - rewrite do_call_exits. exact I2. }
  destruct I as [I1 I2].
  assert (Hx' : forall pid, QEMURunner.process (self s) = Some pid ->
                            exits_on_term (world s) pid = true).
  { intros pid _. rewrite I2. apply Hx. }
  destruct (stop_returns s Hx') as [R C].
  pose proof (stop_spec (fun r s' => stop_post s r s') s (fun r s' P => P)) as P.
  unfold wp, stop_post in P. rewrite R in P.
  destruct P as (_ & P2 & _ & P4 & P5).
  repeat split; auto.
  unfold one_live in I1.
  destruct (QEMURunner.process (self s)) as [pid|].
  - rewrite P5, I1. apply remove_id_single.
  - rewrite P5. exact I1.
Qed.

Lemma fixture_teardown_releases_witness :
  let s := fold_left do_call [CallStart 50; CallSend (PyStr "p")]
             (mkSys QEMURunner.init w_ready) in
  fst (QEMURunner.stop s) = Ok tt /\
  live (world (snd (QEMURunner.stop s))) = [] /\
  QEMURunner.process (self (snd (QEMURunner.stop s))) = None /\
  QEMURunner.serial (self (snd (QEMURunner.stop s))) = None /\
  (forall fd, QEMURunner.serial (self s) = Some fd ->
              ~ In fd (opened (world (snd (QEMURunner.stop s))))).
Proof.
  apply (fixture_teardown_releases [CallStart 50; CallSend (PyStr "p")] w_ready).
  - reflexivity.
  - intros pid. reflexivity.
Defined.

(** X10.  [stop] is idempotent: once a [stop()] has returned, another
    [stop()] returns normally and changes nothing, neither in the session nor
    in its environment. *)
Theorem stop_idempotent (s s' : Sys QEMURunner.t) :
  QEMURunner.stop s = (Ok tt, s') ->
  QEMURunner.stop s' = (Ok tt, s').
Proof.
  intros H.
  pose proof (stop_spec (fun r s1 => stop_post s r s1) s (fun r s1 P => P)) as P.
  unfold wp, stop_post in P. rewrite H in P. simpl in P.
  destruct P as (_ & Ec & _ & Ep & _).
  unfold QEMURunner.stop, bind, gets, ret. simpl. rewrite Ec. simpl.
  rewrite Ep. reflexivity.
Qed.

Lemma stop_idempotent_witness :
  QEMURunner.stop
    (snd (QEMURunner.stop
            (snd (QEMURunner.start 50 (mkSys QEMURunner.init w_ready))))) =
  (Ok tt,
   snd (QEMURunner.stop
          (snd (QEMURunner.start 50 (mkSys QEMURunner.init w_ready))))).
Proof.
  apply (stop_idempotent
           (snd (QEMURunner.start 50 (mkSys QEMURunner.init w_ready)))).
  vm_compute. reflexivity.
Defined.

(** ** Connecting *)

Lemma connect_loop_connects (k : nat) :
  forall (n : nat) (s : Sys QEMURunner.t),
    k < n ->
    (forall j, j < k -> listening (world s) (now (world s) + j) = false) ->
    listening (world s) (now (world s) + k) = true ->
    exists s',
      QEMURunner.connect_loop n s = (Ok tt, s') /\
      QEMURunner.serial (self s') = Some (next_id (world s) + k) /\
      mem_id (next_id (world s) + k) (connected (world s')) = true /\
      now (world s') = now (world s) + k /\
      next_id (world s') = S (next_id (world s) + k) /\
      QEMURunner.process (self s') = QEMURunner.process (self s) /\
      live (world s') = live (world s).
Proof.
  induction k as [|k IH]; intros n s Hk Hf Ht.
  - destruct n as [|n]; [lia|]. rewrite Nat.add_0_r in Ht.
    eexists. split.
    + simpl. unfold QEMURunner.set_serial. wp_prims.
      unfold bind, catch, gets, modify, ret, raise. simpl. rewrite Ht.
      reflexivity.
    + simpl. rewrite !Nat.add_0_r. repeat split; auto.
      unfold mem_id. rewrite existsb_app. simpl. rewrite Nat.eqb_refl.
      apply orb_true_r.
  - destruct n as [|n]; [lia|].
    assert (H0 : listening (world s) (now (world s)) = false).
    { rewrite <- (Nat.add_0_r (now (world s))). apply Hf. lia. }
    set (s1 := mkSys (QEMURunner.mk (QEMURunner.process (self s))
                        (Some (next_id (world s)))
                        (QEMURunner.output_queue (self s))
                        (QEMURunner.reader_thread (self s)))
                 (mkWorld (now (world s) + 1) (launchable (world s))
                    (listening (world s)) (exits_on_term (world s))
                    (live (world s)) (opened (world s) ++ [next_id (world s)])
                    (connected (world s)) (S (next_id (world s)))
                    ((log (world s) ++ [EvSocket (next_id (world s))])
                       ++ [EvConnect (next_id (world s)) false]))).
    assert (E : QEMURunner.connect_loop (S n) s = QEMURunner.connect_loop n s1).
    { simpl. unfold QEMURunner.set_serial. wp_prims.
      unfold bind at 1. unfold catch, bind, gets, modify, ret, raise, emit.
      simpl. rewrite H0. reflexivity. }
    destruct (IH n s1) as [s' (R1 & R2 & R3 & R4 & R5 & R6 & R7)].
    + lia.
    + intros j Hj. simpl. rewrite <- Nat.add_assoc. apply Hf. simpl. lia.
    + simpl. rewrite <- Nat.add_assoc. exact Ht.
    + exists s'. rewrite E. simpl in *. split; [exact R1|].
      replace (next_id (world s) + S k) with (S (next_id (world s) + k)) by lia.
      replace (now (world s) + S k) with (now (world s) + 1 + k) by lia.
      repeat split; auto.
Qed.

(** X11.  [start] connects at the first attempt that finds the emulator
    listening: on a session without a recorded process, if the attempts made
    0.5 s after the launch and then every 0.1 s fail [k] times and the next
    one, still within the timeout, succeeds, then [start] returns normally
    [0.5 + 0.1 k] seconds after the call with a connected socket recorded,
    and a following [send] goes through. *)
Theorem start_connects_at_first_listening_attempt
  (k timeout : nat) (s : Sys QEMURunner.t) (data : pydata) :
  QEMURunner.process (self s) = None ->
  launchable (world s) = true ->
  k < timeout ->
  (forall j, j < k -> listening (world s) (now (world s) + 5 + j) = false) ->
  listening (world s) (now (world s) + 5 + k) = true ->
  let s' := snd (QEMURunner.start timeout s) in
  fst (QEMURunner.start timeout s) = Ok tt /\
  now (world s') = now (world s) + 5 + k /\
  (exists fd, QEMURunner.serial (self s') = Some fd /\
              mem_id fd (connected (world s')) = true) /\
  QEMURunner.process (self s') = Some (next_id (world s)) /\
  fst (QEMURunner.send data s') = Ok tt.
Proof.
  intros Hp Hl Hk Hf Ht. cbv zeta.
  change (wp (QEMURunner.start timeout)
            (fun r s' =>
               r = Ok tt /\
               now (world s') = now (world s) + 5 + k /\
               (exists fd, QEMURunner.serial (self s') = Some fd /\
                           mem_id fd (connected (world s')) = true) /\
               QEMURunner.process (self s') = Some (next_id (world s)) /\
               fst (QEMURunner.send data s') = Ok tt) s).
  unfold QEMURunner.start, QEMURunner.set_process, QEMURunner.set_reader_thread.
  wp_prims. apply wp_bind, wp_gets. cbv beta iota. rewrite Hp.
  wp_run; try congruence.
  match goal with
  | |- wp (QEMURunner.connect_loop _) _ ?st =>
      destruct (connect_loop_connects k timeout st Hk Hf Ht)
        as [s2 (R1 & R2 & R3 & R4 & R5 & R6 & R7)]
  end.
  unfold wp at 1. rewrite R1. cbn [fst snd]. cbv beta iota.
  apply wp_bind, wp_gets. cbv beta iota. rewrite R2.
  wp_run. simpl in *.
  split; [reflexivity|]. split; [exact R4|].
  split; [eexists; split; [exact R2|exact R3]|].
  split; [exact R6|].
  unfold QEMURunner.send, sock_send, bind, gets, getw, setw, modify. simpl.
  rewrite R2. simpl. rewrite R3. reflexivity.
Qed.

Lemma start_connects_at_first_listening_attempt_witness :
  let w := mkWorld 0 true (fun t => 7 <=? t) (fun _ => true) [] [] [] 0 [] in
  let s' := snd (QEMURunner.start 50 (mkSys QEMURunner.init w)) in
  fst (QEMURunner.start 50 (mkSys QEMURunner.init w)) = Ok tt /\
  now (world s') = 0 + 5 + 2 /\
  (exists fd, QEMURunner.serial (self s') = Some fd /\
              mem_id fd (connected (world s')) = true) /\
  QEMURunner.process (self s') = Some 0 /\
  fst (QEMURunner.send (PyStr "p") s') = Ok tt.
Proof.
  apply (start_connects_at_first_listening_attempt 2 50
           (mkSys QEMURunner.init
              (mkWorld 0 true (fun t => 7 <=? t) (fun _ => true) [] [] [] 0 []))
           (PyStr "p")).
  - reflexivity.
  - reflexivity.
  - lia.
  - intros j Hj. destruct j as [|[|j]]; [reflexivity|reflexivity|lia].
  - reflexivity.
Defined.

(** X12.  A restart does not launch a second emulator beside one that will
    not exit: when the recorded process does not exit on SIGTERM, [start]
    fails with [TimeoutExpired] before launching anything, creating no
    socket and no thread, and leaves the old process recorded and alive with
    the serial socket unset. *)
Theorem restart_with_stuck_process_launches_nothing
  (timeout pid : nat) (s : Sys QEMURunner.t) :
  QEMURunner.process (self s) = Some pid ->
  exits_on_term (world s) pid = false ->
  let s' := snd (QEMURunner.start timeout s) in
  fst (QEMURunner.start timeout s) = Raise TimeoutExpired /\
  next_id (world s') = next_id (world s) /\
  live (world s') = live (world s) /\
  QEMURunner.process (self s') = Some pid /\
  QEMURunner.serial (self s') = None.
Proof.
  intros Hp Hx. cbv zeta.
  unfold QEMURunner.start, QEMURunner.stop, QEMURunner.set_serial,
    QEMURunner.set_process.
  wp_prims. unfold bind, gets, modify, ret, raise. simpl. rewrite Hp. simpl.
  destruct (QEMURunner.serial (self s)) as [fd|] eqn:Ec; simpl;
    rewrite Hp; simpl; rewrite Hx; simpl; auto.
Qed.

Lemma restart_with_stuck_process_launches_nothing_witness :
  let s := mkSys (QEMURunner.mk (Some 0) (Some 1) [] (Some 2))
             (mkWorld 0 true (fun _ => true) (fun _ => false) [0] [1] [1] 3 []) in
  let s' := snd (QEMURunner.start 50 s) in
  fst (QEMURunner.start 50 s) = Raise TimeoutExpired /\
  next_id (world s') = next_id (world s) /\
  live (world s') = live (world s) /\
  QEMURunner.process (self s') = Some 0 /\
  QEMURunner.serial (self s') = None.
Proof.
  apply (restart_with_stuck_process_launches_nothing 50 0
           (mkSys (QEMURunner.mk (Some 0) (Some 1) [] (Some 2))
              (mkWorld 0 true (fun _ => true) (fun _ => false) [0] [1] [1] 3 [])));
    reflexivity.
Defined.

(** ** The control plane *)

(** X13.  [start_qemu] tries the serial port once, one second after the
    launch, and reports whether that one attempt succeeded.  When it reports
    failure the emulator it launched is still alive and recorded, and so is
    the unconnected socket: a following [send_serial] raises instead of
    returning [False]. *)
Theorem start_qemu_single_attempt (m : Sys QEMUManager.t) (data : pydata) :
  QEMUManager.process (self m) = None ->
  launchable (world m) = true ->
  let m' := snd (QEMUManager.start_qemu m) in
  let ok := listening (world m) (now (world m) + 10) in
  fst (QEMUManager.start_qemu m) =
    Ok (ok, if ok then "QEMU started successfully"%string
            else "Failed to connect to serial port"%string) /\
  QEMUManager.process (self m') = Some (next_id (world m)) /\
  In (next_id (world m)) (live (world m')) /\
  QEMUManager.serial (self m') = Some (S (next_id (world m))) /\
  (ok = false ->
   mem_id (S (next_id (world m))) (connected (world m)) = false ->
   fst (QEMUManager.send_serial data m') = Raise OSError).
Proof.
  intros Hp Hl. cbv zeta.
  unfold QEMUManager.start_qemu, QEMUManager.set_process,
    QEMUManager.set_serial, QEMUManager.send_serial.
  wp_prims. unfold bind, catch, gets, modify, ret, raise. simpl.
  rewrite Hp. simpl. rewrite Hl. simpl.
  destruct (listening (world m) (now (world m) + 10)) eqn:E; simpl.
  - repeat split; auto; try discriminate.
    apply in_or_app. right. now left.
  - repeat split; auto.
    + apply in_or_app. right. now left.
    + intros _ Hc. rewrite Hc. reflexivity.
Qed.

Lemma start_qemu_single_attempt_witness :
  let m := mkSys QEMUManager.init w_idle in
  let m' := snd (QEMUManager.start_qemu m) in
  fst (QEMUManager.start_qemu m) =
    Ok (false, "Failed to connect to serial port"%string) /\
  QEMUManager.process (self m') = Some 0 /\
  In 0 (live (world m')) /\
  QEMUManager.serial (self m') = Some 1 /\
  fst (QEMUManager.send_serial (PyStr "p") m') = Raise OSError.
Proof.
  destruct (start_qemu_single_attempt (mkSys QEMUManager.init w_idle)
              (PyStr "p") eq_refl eq_refl) as (H1 & H2 & H3 & H4 & H5).
  split; [exact H1|]. split; [exact H2|]. split; [exact H3|].
  split; [exact H4|]. apply H5; reflexivity.
Defined.

(** X14.  When the recorded emulator does not exit on SIGTERM, [stop_qemu]
    never returns, and neither does [POST /reset]: the unbounded [wait()]
    blocks after the signal was sent, with the serial socket still recorded
    and not closed. *)
Theorem stop_qemu_hangs_on_stuck_process (m : Sys QEMUManager.t) (pid : nat) :
  QEMUManager.process (self m) = Some pid ->
  exits_on_term (world m) pid = false ->
  let m' := snd (QEMUManager.stop_qemu m) in
  fst (QEMUManager.stop_qemu m) = Hang /\
  fst (reset m) = Hang /\
  self m' = self m /\
  opened (world m') = opened (world m) /\
  live (world m') = live (world m) /\
  log (world m') = log (world m) ++ [EvTerminate pid].
Proof.
  intros Hp Hx. cbv zeta.
  unfold reset, QEMUManager.stop_qemu, QEMUManager.set_process,
    QEMUManager.set_serial.
  wp_prims. unfold bind, gets, modify, ret, raise, emit. simpl.
  rewrite Hp. simpl. rewrite Hx. simpl. repeat split.
Qed.

Lemma stop_qemu_hangs_on_stuck_process_witness :
  let m := mkSys (QEMUManager.mk (Some 0) (Some 1) None)
             (mkWorld 0 true (fun _ => true) (fun _ => false) [0] [1] [1] 2 []) in
  fst (QEMUManager.stop_qemu m) = Hang /\
  fst (reset m) = Hang /\
  self (snd (QEMUManager.stop_qemu m)) = self m /\
  opened (world (snd (QEMUManager.stop_qemu m))) = opened (world m) /\
  live (world (snd (QEMUManager.stop_qemu m))) = live (world m) /\
  log (world (snd (QEMUManager.stop_qemu m))) = log (world m) ++ [EvTerminate 0].
Proof.
  apply (stop_qemu_hangs_on_stuck_process
           (mkSys (QEMUManager.mk (Some 0) (Some 1) None)
              (mkWorld 0 true (fun _ => true) (fun _ => false) [0] [1] [1] 2 []))
           0); reflexivity.
Defined.

Lemma bind_gets_eq {St A B} (f : St -> A) (k : A -> M St B) (s : St) :
  bind (gets f) k s = k (f s) s.
Proof. reflexivity. Qed.

Lemma bind_ret_eq {St A B} (a : A) (k : A -> M St B) (s : St) :
  bind (ret a) k s = k a s.
Proof. reflexivity. Qed.

Lemma bind_cong {St A B} (c : M St A) (k1 k2 : A -> M St B) (s : St) :
  (forall a s', c s = (Ok a, s') -> k1 a s' = k2 a s') ->
  bind c k1 s = bind c k2 s.
Proof.
  intros H. unfold bind. destruct (c s) as [[a|e|] s']; auto.
Qed.

Lemma stop_qemu_unsets_process (m m1 : Sys QEMUManager.t) :
  QEMUManager.stop_qemu m = (Ok tt, m1) ->
  QEMUManager.process (self m1) = None.
Proof.
  unfold QEMUManager.stop_qemu, QEMUManager.set_process,
    QEMUManager.set_serial.
  wp_prims. unfold bind, gets, modify, ret. simpl.
  destruct (QEMUManager.process (self m)) as [pid|] eqn:Ep; simpl.
  - destruct (exits_on_term (world m) pid); simpl; [|discriminate].
    destruct (QEMUManager.serial (self m)); simpl; intros [= <-];
      reflexivity.
  - destruct (QEMUManager.serial (self m)); simpl; intros [= <-];
      simpl; assumption.
Qed.

(** X15.  [POST /reset] does the same as [POST /flash] without code: on a
    manager that has a process recorded, or no socket, stopping and then
    starting gives the same result and the same state as starting alone,
    which stops first by itself. *)
Theorem reset_is_flash_without_code
  (nasm : string -> nasm_result) (m : Sys QEMUManager.t) :
  QEMUManager.process (self m) <> None \/ QEMUManager.serial (self m) = None ->
  reset m = flash nasm None m.
Proof.
  intros H. unfold reset, flash.
  destruct (QEMUManager.process (self m)) as [pid|] eqn:Ep.
  - unfold QEMUManager.start_qemu at 2. rewrite bind_gets_eq, Ep.
    apply bind_cong. intros [] m1 Es.
    unfold QEMUManager.start_qemu.
    rewrite bind_gets_eq, (stop_qemu_unsets_process m m1 Es), bind_ret_eq.
    reflexivity.
  - destruct H as [H|Ec]; [congruence|].
    assert (Es : QEMUManager.stop_qemu m = (Ok tt, m)).
    { unfold QEMUManager.stop_qemu, bind, gets, ret. simpl.
      rewrite Ep, Ec. reflexivity. }
    unfold bind at 1. rewrite Es. reflexivity.
Qed.

Lemma reset_is_flash_without_code_witness :
  let m := snd (QEMUManager.start_qemu (mkSys QEMUManager.init w_ready)) in
  reset m = flash (fun _ => NasmOk) None m.
Proof.
  apply (reset_is_flash_without_code (fun _ => NasmOk)
           (snd (QEMUManager.start_qemu (mkSys QEMUManager.init w_ready)))).
  left. vm_compute. discriminate.
Defined.

(** X16.  [POST /flash] with code restarts the emulator only after a
    successful compilation: when the assembler rejects the code, the route
    answers with the assembler's message and leaves the manager and its
    emulator untouched; when the assembler is missing the exception leaves the
    route, again with nothing touched; when the code compiles, the route does
    what it does without code. *)
Theorem flash_restarts_only_after_compiling
  (nasm : string -> nasm_result) (code : string) (m : Sys QEMUManager.t) :
  flash nasm (Some code) m =
  match nasm code with
  | NasmOk => flash nasm None m
  | NasmError stderr =>
      (Ok (false, ("Compilation failed: " ++ stderr)%string), m)
  | NasmMissing => (Raise FileNotFoundError, m)
  end.
Proof.
  unfold flash, compile_bootloader, bind.
  destruct (nasm code); reflexivity.
Qed.

(** ** One subprocess per manager *)

Lemma do_route_one_live (nasm : string -> nasm_result)
      (m : Sys QEMUManager.t) (r : route) :
  manager_one_live m -> manager_one_live (do_route nasm m r).
Proof.
  intros I. destruct r as [[code|]| |data]; simpl.
  - unfold flash, compile_bootloader, bind.
    destruct (nasm code); simpl; auto. apply start_qemu_one_live. exact I.
  - apply start_qemu_one_live. exact I.
  - change (wp reset (fun _ m' => manager_one_live m') m). unfold reset.
    apply wp_bind. apply stop_qemu_one_live; [exact I|].
    intros r m' I' _. destruct r as [[]|e|]; try exact I'.
    apply (start_qemu_one_live m' I').
  - unfold send_serial_route, QEMUManager.send_serial, manager_one_live in *.
    unfold bind, gets. simpl.
    destruct (QEMUManager.serial (self m)) as [fd|]; [|exact I].
    unfold sock_send, bind, getw, setw, gets, modify, raise, ret. simpl.
    destruct (mem_id fd (connected (world m))); exact I.
Qed.

(** X17.  Whatever requests [POST /flash], [POST /reset] and [POST /serial]
    the control plane serves, with whatever the assembler answers, at most one
    emulator subprocess is alive after each of them. *)
Theorem manager_at_most_one_live
  (nasm : string -> nasm_result) (routes : list route) (w : World) :
  live w = [] ->
  length (live (world (fold_left (do_route nasm) routes
                         (mkSys QEMUManager.init w)))) <= 1.
Proof.
  intros Hw.
  assert (I : manager_one_live
                (fold_left (do_route nasm) routes (mkSys QEMUManager.init w))).
  { assert (I0 : manager_one_live (mkSys QEMUManager.init w)) by exact Hw.
    revert I0. generalize (mkSys QEMUManager.init w).
    induction routes as [|r rs IH]; intros m I0; [exact I0|].
    simpl. apply IH. apply do_route_one_live. exact I0. }
  unfold manager_one_live in I. rewrite I.
  destruct (QEMUManager.process _); simpl; lia.
Qed.

Lemma manager_at_most_one_live_witness :
  length (live (world (fold_left (do_route (fun _ => NasmOk))
                         [PostFlash (Some "cli"%string); PostReset;
                          PostSerial (PyStr "p"); PostFlash None]
                         (mkSys QEMUManager.init w_ready)))) <= 1.
Proof.
  apply (manager_at_most_one_live (fun _ => NasmOk)
           [PostFlash (Some "cli"%string); PostReset;
            PostSerial (PyStr "p"); PostFlash None] w_ready).
  reflexivity.
Defined.

(** ** Reading the serial port from the control plane *)

(** X18.  [read_serial] answers [b''] only when no socket is recorded or
    when [recv] itself returned [b'']; a [recv] that times out or fails does
    not yield [b'']: the method then raises [NameError], because [socket] is
    not a global name of setup.py. *)
Theorem read_serial_empty_iff (m : QEMUManager.t) (r : recv_result) :
  (read_serial m r = inl [] <->
   QEMUManager.serial m = None \/ r = Data []) /\
  (QEMUManager.serial m <> None -> r <> Timeout -> r <> OtherError ->
   exists data, r = Data data /\ read_serial m r = inl data) /\
  (QEMUManager.serial m <> None -> (r = Timeout \/ r = OtherError) ->
   read_serial m r = inr (NameError "socket")).
Proof.
  unfold read_serial. destruct (QEMUManager.serial m) as [fd|].
  - repeat split.
    + destruct r as [data| |]; try discriminate.
      intros [= ->]. now right.
    + intros [H | ->]; [discriminate|reflexivity].
    + intros _ H1 H2. destruct r as [data| |]; try congruence. eauto.
    + intros _ [-> | ->]; reflexivity.
  - repeat split; auto; intros H; congruence.
Qed.

(** ** The prerequisite check *)

Lemma error_set_quiet (shell : string -> run_result)
      (str_strip : string -> string) (cmd : string) :
  error_set (snd (run_command shell str_strip cmd)) = false <-> quiet shell cmd.
Proof.
  unfold run_command, quiet. destruct (shell cmd) as [p|msg]; simpl.
  - destruct (returncode p =? 0)%Z eqn:E; simpl.
    + apply Z.eqb_eq in E. tauto.
    + apply Z.eqb_neq in E. destruct (stderr p); simpl.
      * split; auto.
      * split; [discriminate|]. intros [H|H]; [contradiction|discriminate].
  - destruct msg; simpl; split; auto; discriminate.
Qed.

(** X19.  [check_gh_cli] reports the CLI ready exactly when neither
    [gh --version] nor [gh auth status] leaves an error text: a command that
    fails with nothing on its standard error passes the check.  A noisy
    [gh --version] is reported as not installed whatever [gh auth status]
    does. *)
Theorem check_gh_cli_ready_iff_quiet
  (shell : string -> run_result) (str_strip : string -> string) :
  (fst (check_gh_cli shell str_strip) = true <->
   quiet shell "gh --version" /\ quiet shell "gh auth status") /\
  (~ quiet shell "gh --version" ->
   check_gh_cli shell str_strip =
     (false, "GitHub CLI (gh) not installed"%string)) /\
  (quiet shell "gh --version" -> ~ quiet shell "gh auth status" ->
   check_gh_cli shell str_strip =
     (false, "GitHub CLI not authenticated. Run: gh auth login"%string)).
Proof.
  pose proof (error_set_quiet shell str_strip "gh --version") as Hv.
  pose proof (error_set_quiet shell str_strip "gh auth status") as Ha.
  unfold check_gh_cli.
  destruct (run_command shell str_strip "gh --version") as [o1 e1].
  destruct (run_command shell str_strip "gh auth status") as [o2 e2].
  simpl in Hv, Ha.
  destruct (error_set e1) eqn:E1; destruct (error_set e2) eqn:E2; simpl;
    repeat split; try tauto; try discriminate; intros;
    try (exfalso; intuition congruence).
Qed.

(** A failing [gh auth status] that prints nothing goes unnoticed. *)
Example check_gh_cli_silent_failure :
  check_gh_cli
    (fun cmd => if String.eqb cmd "gh --version"
                then Completed (mkCompleted 0 "gh version 2.40" "")
                else Completed (mkCompleted 1 "" ""))
    (fun s => s) = (true, "GitHub CLI ready"%string).
Proof. reflexivity. Qed.
